(** * MovieAPI: a shallow embedding of [src/index.js]

    The class [MovieAPI] keeps an array of movie objects and a counter
    [idCount].  Objects are open JavaScript records: they are modelled as
    finite maps from property names to values, so that object spread is map
    union, rest destructuring is map deletion, a property read is a lookup
    (an absent property reads as [undefined], here [None]) and a property
    write is an insertion.

    Numbers are doubles: a finite double is represented by the rational it
    denotes, and every arithmetic operation is followed by the rounding to
    the nearest double.  Strings are held as the bytes of their UTF-8 form
    and compared as JavaScript compares them, by UTF-16 code units.

    What the host (the JavaScript engine) supplies and the repository does
    not define is collected in the class [Host]: the string-to-number
    coercion behind [==], [<] and [>], and [Array.prototype.sort]. *)

From Stdlib Require Import ZArith QArith Qcanon Qround Qpower String Ascii List.
From Stdlib Require Import Permutation Sorted Lia Lqa.
From stdpp Require Import base numbers option list sorting gmap strings.

Local Open Scope string_scope.
Local Open Scope list_scope.

(** ** Values *)

(** A JavaScript number: a finite value, one of the infinities, or NaN.
    Finite doubles are represented by the rational they denote. *)
Inductive number : Type :=
  | NaN
  | NegInfinity
  | Fin (q : Qc)
  | PosInfinity.

(** The values a movie property holds: numbers ([id], [rating]), strings
    ([title], [description], [thumb], [genre]), arrays of strings
    ([subtitle]) and [null], the types that the [Movie] typedef and the
    constructor give them.  A property of any name may hold any of them. *)
Inductive value : Type :=
  | VNull
  | VNum (n : number)
  | VStr (s : string)
  | VArr (l : list string).

(** A movie object. *)
Abbreviation object := (gmap string value).

(** Counters are non-negative integers; as JavaScript numbers they are
    exact (the counts that occur stay far below 2^53). *)
Definition num_of_nat (n : nat) : number := Fin (Qc_of_Z (Z.of_nat n)).

(** [a > b] on numbers: false as soon as one side is NaN. *)
Definition num_gt (a b : number) : bool :=
  match a, b with
  | NaN, _ | _, NaN => false
  | NegInfinity, _ => false
  | Fin _, NegInfinity => true
  | Fin p, Fin q => bool_decide (q < p)%Qc
  | Fin _, PosInfinity => false
  | PosInfinity, PosInfinity => false
  | PosInfinity, _ => true
  end.

(** [a === b] on numbers: NaN differs from everything, itself included. *)
Definition num_eq (a b : number) : bool :=
  match a, b with
  | NegInfinity, NegInfinity => true
  | Fin p, Fin q => bool_decide (p = q)
  | PosInfinity, PosInfinity => true
  | _, _ => false
  end.

(** A string value is held as the bytes of its UTF-8 form, the form it
    has in [movies.json].  A JavaScript string is a sequence of 16-bit code
    units, the UTF-16 form of the same text, and [<] and [>] compare two
    strings code unit by code unit. *)

(** The six payload bits of a continuation byte [10xxxxxx]. *)
Definition continuation (c : ascii) : option N :=
  let b := N_of_ascii c in
  if ((128 <=? b) && (b <? 192))%N then Some (b - 128)%N else None.

(** The code points that the bytes encode.  A byte that does not start a
    well-formed sequence reads as U+FFFD, as a decoder replaces it. *)
Fixpoint code_points (s : string) : list N :=
  match s with
  | EmptyString => []
  | String c rest =>
      let b := N_of_ascii c in
      let stray := (65533 :: code_points rest)%N in
      if (b <? 128)%N then b :: code_points rest
      else
        match rest with
        | String c1 rest1 =>
            match continuation c1 with
            | Some x1 =>
                if ((192 <=? b) && (b <? 224))%N
                then ((b - 192) * 64 + x1)%N :: code_points rest1
                else
                  match rest1 with
                  | String c2 rest2 =>
                      match continuation c2 with
                      | Some x2 =>
                          if ((224 <=? b) && (b <? 240))%N
                          then ((b - 224) * 4096 + x1 * 64 + x2)%N
                               :: code_points rest2
                          else
                            match rest2 with
                            | String c3 rest3 =>
                                match continuation c3 with
                                | Some x3 =>
                                    if ((240 <=? b) && (b <? 248))%N
                                    then ((b - 240) * 262144 + x1 * 4096
                                          + x2 * 64 + x3)%N
                                         :: code_points rest3
                                    else stray
                                | None => stray
                                end
                            | EmptyString => stray
                            end
                      | None => stray
                      end
                  | EmptyString => stray
                  end
            | None => stray
            end
        | EmptyString => stray
        end
  end.

(** The code units of a code point: itself below 2^16, a surrogate pair
    from there on. *)
Definition utf16 (p : N) : list N :=
  if (p <? 65536)%N then [p]
  else [(55296 + (p - 65536) / 1024)%N; (56320 + (p - 65536) mod 1024)%N].

Definition code_units (s : string) : list N := flat_map utf16 (code_points s).

(** The lexicographic order on sequences of code units. *)
Fixpoint units_lt (a b : list N) : bool :=
  match a, b with
  | _, [] => false
  | [], _ :: _ => true
  | x :: a', y :: b' =>
      if (x <? y)%N then true else if (y <? x)%N then false else units_lt a' b'
  end.

(** [s > t] on strings. *)
Definition string_gt (s t : string) : bool :=
  units_lt (code_units t) (code_units s).

(** [Array.prototype.join] with the default separator, which is what
    converting an array of strings to a primitive calls. *)
Definition join (l : list string) : string := String.concat "," l.

(** ** Double arithmetic *)

Definition pow2 (z : Z) : Q := Qpower 2 z.

(** The nearest integer, a tie going to the even one. *)
Definition round_half_even (x : Q) : Z :=
  let f := Qfloor (x + (1 # 2))%Q in
  if Qeq_bool (x + (1 # 2))%Q (inject_Z f) && Z.odd f then (f - 1)%Z else f.

(** The exponent [e] with [2^e <= x < 2^(e+1)], for a positive [x]. *)
Definition binade (x : Q) : Z :=
  let c := (Z.log2 (Qnum x) - Z.log2 (Zpos (Qden x)))%Z in
  if Qle_bool (pow2 c) x then c else (c - 1)%Z.

(** The exponent of the last of the 53 bits of a double near [x]; below
    2^-1022 the doubles are evenly spaced. *)
Definition unit_of (x : Q) : Z := (Z.max (binade x) (-1022) - 52)%Z.

(** Rounding to a multiple of 2^q. *)
Definition in_units (q : Z) (x : Q) : Q :=
  (inject_Z (round_half_even (x / pow2 q)) * pow2 q)%Q.

Definition round_positive (x : Q) : Q := in_units (unit_of x) x.

Definition round_Q (x : Q) : Q :=
  match (x ?= 0)%Q with
  | Eq => 0%Q
  | Gt => round_positive x
  | Lt => (- round_positive (- x))%Q
  end.

(** The double nearest to an exact result, a tie going to the double with
    an even last bit.  The exponent is not bounded above: the results that
    occur in this class are far from 2^1024, where a double overflows. *)
Definition round_double (x : Qc) : Qc := Q2Qc (round_Q x).

(** ** The host *)

Class Host : Type := {
  (** the numeric value of a string (ToNumber applied to a string) *)
  StringToNumber : string → number;
  (** [Array.prototype.sort] with a comparator; the comparator's result is
      an integer, of which the host reads the sign *)
  array_sort : ∀ A : Type, (A → A → Z) → list A → list A
}.
Global Arguments array_sort {_ _} _ _.

(** The comparator's view of an order: [a] may stand before [b]. *)
Definition before {A : Type} (cmp : A → A → Z) (a b : A) : Prop :=
  (cmp a b ≤ 0)%Z.

(** What is assumed of [Array.prototype.sort]: the result holds the same
    elements, and it is ordered whenever the comparator orders the elements
    of the array: any two are comparable, comparisons chain, and an answer
    "after" (a positive result) is matched by the answer "before" (a
    negative result) when the two are swapped.  The comparators of this
    class never answer 0, not even for a record and itself, so the
    guarantee of the language standard, which is for comparators that do,
    is not enough; sorts that read only the sign of each answer, as those of
    the engines, meet the assumption. *)
Class SortLaws (H : Host) : Prop := {
  array_sort_perm :
    ∀ (A : Type) (cmp : A → A → Z) (l : list A), array_sort cmp l ≡ₚ l;
  array_sort_sorted :
    ∀ (A : Type) (cmp : A → A → Z) (l : list A),
      (∀ a b, a ∈ l → b ∈ l → before cmp a b ∨ before cmp b a) →
      (∀ a b c, a ∈ l → b ∈ l → c ∈ l →
                before cmp a b → before cmp b c → before cmp a c) →
      (∀ a b, a ∈ l → b ∈ l → (0 < cmp a b)%Z → (cmp b a < 0)%Z) →
      StronglySorted (before cmp) (array_sort cmp l)
}.

Section Coercions.
Context `{Host}.

(** ToNumber on a property read. *)
Definition ToNumber (x : option value) : number :=
  match x with
  | None => NaN
  | Some VNull => Fin (Qc_of_Z 0)
  | Some (VNum n) => n
  | Some (VStr s) => StringToNumber s
  | Some (VArr l) => StringToNumber (join l)
  end.

(** ToPrimitive, then the string when the primitive is one. *)
Definition as_string (x : option value) : option string :=
  match x with
  | Some (VStr s) => Some s
  | Some (VArr l) => Some (join l)
  | _ => None
  end.

(** [x > y]: two strings are compared as strings, anything else as
    numbers. *)
Definition js_gt (x y : option value) : bool :=
  match as_string x, as_string y with
  | Some s, Some t => string_gt s t
  | _, _ => num_gt (ToNumber x) (ToNumber y)
  end.

(** [x < y] *)
Definition js_lt (x y : option value) : bool := js_gt y x.

(** [x === n] for a number [n]. *)
Definition strict_eq_num (x : option value) (n : number) : bool :=
  match x with
  | Some (VNum m) => num_eq m n
  | _ => false
  end.

(** [x == n] for a number [n]: a string or an array is converted, and
    neither [undefined] nor [null] equals a number. *)
Definition loose_eq_num (x : option value) (n : number) : bool :=
  match x with
  | None | Some VNull => false
  | Some (VNum m) => num_eq m n
  | Some (VStr s) => num_eq (StringToNumber s) n
  | Some (VArr l) => num_eq (StringToNumber (join l)) n
  end.

(** [x === g] for an argument [g] that is a string or is left out. *)
Definition strict_eq_str (x : option value) (g : option string) : bool :=
  match x, g with
  | None, None => true
  | Some (VStr s), Some t => String.eqb s t
  | _, _ => false
  end.
End Coercions.

(** ** The class [MovieAPI] *)

(** The two fields of an instance. *)
Record MovieAPI : Type := {
  movies : list object;
  idCount : nat
}.

(** A line written by [console.log]. *)
Inductive log_entry : Type :=
  | LogText (s : string)
  | LogMovies (l : list object).

(** What a method call leaves behind: the instance after the call, the
    returned value and the lines logged. *)
Record effect (R : Type) : Type := {
  after : MovieAPI;
  result : R;
  console : list log_entry
}.
Global Arguments after {_} _.
Global Arguments result {_} _.
Global Arguments console {_} _.

(** [Array.prototype.slice]: a negative index counts from the end, and both
    ends are clamped to the array. *)
Definition slice_index (len : nat) (i : Z) : nat :=
  Z.to_nat (if (i <? 0)%Z then Z.max (Z.of_nat len + i) 0
            else Z.min i (Z.of_nat len)).

Definition slice {A : Type} (start : Z) (stop : option Z) (l : list A) : list A :=
  let len := length l in
  let k := slice_index len start in
  let final := match stop with
               | None => len
               | Some e => slice_index len e
               end in
  firstn (final - k) (skipn k l).

(** [Math.round]: the nearest integer, a tie going up. *)
Definition Math_round (x : Qc) : Z := Qfloor (x + Q2Qc (1 # 2))%Qc.

Section Methods.
Context `{Host}.

(** [generateRating], for the value [u] that [Math.random()] returns:
    [Math.round((u * (5 - 1) + 1) * 10) / 10], each operation rounded. *)
Definition generateRating (u : Qc) : number :=
  let scaled := round_double (u * Qc_of_Z (5 - 1))%Qc in
  let shifted := round_double (scaled + Qc_of_Z 1)%Qc in
  let tenfold := round_double (shifted * Qc_of_Z 10)%Qc in
  Fin (round_double (Qc_of_Z (Math_round tenfold) / Qc_of_Z 10)%Qc).

(** The object literal [{ id: idCount, rating: r, ...movie }]: the
    properties of [movie] are copied last, over [id] and [rating]. *)
Definition stamp (count : nat) (r : number) (movie : object) : object :=
  movie ∪ {[ "id" := VNum (num_of_nat count); "rating" := VNum r ]}.

(** The loop of the constructor over the entries, in index order; [random k]
    is what the call of [Math.random()] for the entry stamped at counter
    [k] returns. *)
Fixpoint stamp_all (random : nat → Qc) (count : nat) (entries : list object)
  : list object * nat :=
  match entries with
  | [] => ([], count)
  | movie :: rest =>
      let stamped := stamp count (generateRating (random count)) movie in
      let '(rest', count') := stamp_all random (S count) rest in
      (stamped :: rest', count')
  end.

Definition constructor (random : nat → Qc) (entries : list object) : MovieAPI :=
  let '(stamped, count) := stamp_all random 0 entries in
  {| movies := stamped; idCount := count |}.

Definition fetchAllMovies (this : MovieAPI) : list object := movies this.

Definition fetchMoviesByGenre (genre : option string) (this : MovieAPI)
  : list object :=
  List.filter (λ movie, strict_eq_str (movie !! "genre") genre) (movies this).

Definition deleteMovieById (id : number) (this : MovieAPI) : effect unit :=
  match List.find (λ movie, strict_eq_num (movie !! "id") id) (movies this) with
  | None =>
      {| after := this; result := tt; console := [LogText "Invalid movie id"] |}
  | Some _ =>
      {| after := {| movies := List.filter
                                 (λ movie, negb (loose_eq_num (movie !! "id") id))
                                 (movies this);
                     idCount := idCount this |};
         result := tt; console := [] |}
  end.

Definition fetchMoviesNoSubThumb (this : MovieAPI) : list object :=
  List.map (λ movie, delete "thumb" (delete "subtitle" movie)) (movies this).

Definition by_title (m1 m2 : object) : Z :=
  if js_gt (m1 !! "title") (m2 !! "title") then 1%Z else (-1)%Z.

Definition by_rating (m1 m2 : object) : Z :=
  if js_gt (m1 !! "rating") (m2 !! "rating") then 1%Z else (-1)%Z.

Definition by_rating_desc (m1 m2 : object) : Z :=
  if js_lt (m1 !! "rating") (m2 !! "rating") then 1%Z else (-1)%Z.

(** The sort is in place: the array of the instance is the sorted one, and
    it is the array returned. *)
Definition fetchMoviesSortedByName (this : MovieAPI) : effect (list object) :=
  let sorted := array_sort by_title (movies this) in
  {| after := {| movies := sorted; idCount := idCount this |};
     result := sorted; console := [] |}.

Definition fetchTopBot2 (this : MovieAPI) : effect (list object) :=
  let sorted := array_sort by_rating (movies this) in
  {| after := {| movies := sorted; idCount := idCount this |};
     result := slice (-2) None sorted ++ slice 0 (Some 2%Z) sorted;
     console := [] |}.

Definition printTop3 (this : MovieAPI) : effect unit :=
  let sorted := array_sort by_rating_desc (movies this) in
  let top3 := slice 0 (Some 3%Z) sorted in
  {| after := {| movies := sorted; idCount := idCount this |};
     result := tt; console := [LogMovies top3] |}.

Definition printBottomToTopRated (this : MovieAPI) : effect unit :=
  let botToTop := array_sort by_rating (movies this) in
  {| after := {| movies := botToTop; idCount := idCount this |};
     result := tt; console := [LogMovies botToTop] |}.

(** [u] is what [Math.random()] returns during the call. *)
Definition addMovie (u : Qc) (movie : object) (this : MovieAPI) : MovieAPI :=
  {| movies := movies this ++ [stamp (idCount this) (generateRating u) movie];
     idCount := S (idCount this) |}.

Definition findMovieById (id : number) (this : MovieAPI) : effect (option object) :=
  match List.find (λ movie, loose_eq_num (movie !! "id") id) (movies this) with
  | Some m => {| after := this; result := Some m; console := [] |}
  | None =>
      {| after := this; result := None;
         console := [LogText "Invalid movie id"] |}
  end.

(** [Array.prototype.findIndex], with [None] for the -1 of no match. *)
Fixpoint findIndex {A : Type} (p : A → bool) (l : list A) : option nat :=
  match l with
  | [] => None
  | x :: rest => if p x then Some 0 else S <$> findIndex p rest
  end.

Definition editMovieTitleById (id : number) (title : string) (this : MovieAPI)
  : effect unit :=
  match findIndex (λ movie, strict_eq_num (movie !! "id") id) (movies this) with
  | None =>
      {| after := this; result := tt; console := [LogText "Invalid movie id"] |}
  | Some i =>
      {| after := {| movies := alter (λ movie, <["title" := VStr title]> movie)
                                     i (movies this);
                     idCount := idCount this |};
         result := tt; console := [] |}
  end.

End Methods.

(** ** The life of an instance *)

(** A call of one of the eleven methods (with what [Math.random()] returns
    during it, where the method draws a rating). *)
Inductive call : Type :=
  | FetchAllMovies
  | FetchMoviesByGenre (genre : option string)
  | DeleteMovieById (id : number)
  | FetchMoviesNoSubThumb
  | FetchMoviesSortedByName
  | FetchTopBot2
  | PrintTop3
  | PrintBottomToTopRated
  | AddMovie (u : Qc) (movie : object)
  | FindMovieById (id : number)
  | EditMovieTitleById (id : number) (title : string).

Section Lifetime.
Context `{Host}.

(** The instance after a call. *)
Definition step (c : call) (this : MovieAPI) : MovieAPI :=
  match c with
  | FetchAllMovies | FetchMoviesByGenre _ | FetchMoviesNoSubThumb => this
  | DeleteMovieById id => after (deleteMovieById id this)
  | FetchMoviesSortedByName => after (fetchMoviesSortedByName this)
  | FetchTopBot2 => after (fetchTopBot2 this)
  | PrintTop3 => after (printTop3 this)
  | PrintBottomToTopRated => after (printBottomToTopRated this)
  | AddMovie u movie => addMovie u movie this
  | FindMovieById id => after (findMovieById id this)
  | EditMovieTitleById id title => after (editMovieTitleById id title this)
  end.

Definition run (calls : list call) (this : MovieAPI) : MovieAPI :=
  fold_left (λ s c, step c s) calls this.

(** The records a call creates: those the store holds after the call
    beyond its previous length, where [push] puts them. *)
Definition created_by (c : call) (this : MovieAPI) : list object :=
  skipn (length (movies this)) (movies (step c this)).

Fixpoint created (calls : list call) (this : MovieAPI) : list object :=
  match calls with
  | [] => []
  | c :: rest => created_by c this ++ created rest (step c this)
  end.

(** Every record the instance has held since it was built, deleted ones
    included, in order of creation. *)
Definition ever_created (random : nat → Qc) (entries : list object)
  (calls : list call) : list object :=
  movies (constructor random entries) ++ created calls (constructor random entries).

(** [addMovie] called once for each of [added], in order. *)
Definition add_all (added : list (Qc * object)) (this : MovieAPI) : MovieAPI :=
  fold_left (λ s a, addMovie a.1 a.2 s) added this.

End Lifetime.

(** The [id] properties of an array of movies, in order. *)
Definition ids (l : list object) : list (option value) :=
  List.map (λ movie : object, movie !! "id") l.

(** An entry as the [Movie] typedef has it: without an [id] of its own. *)
Definition without_id (movie : object) : Prop := movie !! "id" = None.

(** The movies a call takes from its caller. *)
Definition supplied (c : call) : list object :=
  match c with
  | AddMovie _ movie => [movie]
  | _ => []
  end.

(** The ids that a counter running from [start] hands out in [len] steps. *)
Definition counted (start len : nat) : list (option value) :=
  List.map (λ i : nat, Some (VNum (num_of_nat i))) (seq start len).

(** The ids of the store are pairwise distinct and were handed out by the
    counter. *)
Definition well_numbered (this : MovieAPI) : Prop :=
  Forall (λ v : option value,
            ∃ i : nat, v = Some (VNum (num_of_nat i)) ∧ i < idCount this)
         (ids (movies this)) ∧
  NoDup (ids (movies this)).

(** Every [id] is a number. *)
Definition numeric_ids (l : list object) : Prop :=
  Forall (λ movie : object, ∃ n, movie !! "id" = Some (VNum n)) l.

(** Every [rating] is a number other than NaN. *)
Definition ordered_number (n : number) : Prop := n ≠ NaN.

Definition rated (l : list object) : Prop :=
  Forall (λ movie : object,
            ∃ n, movie !! "rating" = Some (VNum n) ∧ ordered_number n) l.

(** Every [title] is a string. *)
Definition titled (l : list object) : Prop :=
  Forall (λ movie : object, ∃ s, movie !! "title" = Some (VStr s)) l.

(** [a <= b] on numbers. *)
Definition num_le (a b : number) : Prop :=
  match a, b with
  | NaN, _ | _, NaN => False
  | NegInfinity, _ => True
  | _, PosInfinity => True
  | Fin p, Fin q => (p ≤ q)%Qc
  | _, _ => False
  end.

(** Two movies in rating order, and in title order. *)
Definition rating_le (m1 m2 : object) : Prop :=
  ∃ a b, m1 !! "rating" = Some (VNum a) ∧ m2 !! "rating" = Some (VNum b) ∧
         num_le a b.

(** [s <= t] on strings: [s] is not greater than [t]. *)
Definition string_le (s t : string) : Prop := string_gt s t = false.

Definition title_le (m1 m2 : object) : Prop :=
  ∃ s t, m1 !! "title" = Some (VStr s) ∧ m2 !! "title" = Some (VStr t) ∧
         string_le s t.

(** ** A host to run the model on *)

(** The code units that [StringToNumber] strips as white space: TAB, LF,
    VT, FF, CR, SP, NBSP, the other space separators, the line and
    paragraph separators and the byte order mark. *)
Definition is_space (n : N) : bool :=
  ((9 <=? n) && (n <=? 13) || (n =? 32) || (n =? 160) || (n =? 5760)
   || (8192 <=? n) && (n <=? 8202) || (n =? 8232) || (n =? 8233)
   || (n =? 8239) || (n =? 8287) || (n =? 12288) || (n =? 65279))%N.

Fixpoint trim_start (s : list N) : list N :=
  match s with
  | c :: rest => if is_space c then trim_start rest else s
  | [] => []
  end.

Definition trim (s : list N) : list N :=
  rev (trim_start (rev (trim_start s))).

(** The digit a code unit stands for in a radix. *)
Definition digit_of (radix n : N) : option N :=
  let d := if ((48 <=? n) && (n <=? 57))%N then Some (n - 48)%N
           else if ((97 <=? n) && (n <=? 102))%N then Some (n - 87)%N
           else if ((65 <=? n) && (n <=? 70))%N then Some (n - 55)%N
           else None in
  match d with
  | Some k => if (k <? radix)%N then Some k else None
  | None => None
  end.

(** Reads the longest run of digits: their value from [acc] on, how many
    there were, and what follows them. *)
Fixpoint read_digits (radix acc : N) (s : list N) : N * nat * list N :=
  match s with
  | c :: rest =>
      match digit_of radix c with
      | Some d =>
          let '(v, n, tail) := read_digits radix (acc * radix + d)%N rest in
          (v, S n, tail)
      | None => (acc, 0, s)
      end
  | [] => (acc, 0, [])
  end.

(** A literal made of a prefix and digits in a radix, as [0x1F]. *)
Definition read_radix (radix : N) (s : list N) : number :=
  match read_digits radix 0 s with
  | (v, S _, []) =>
      if Qle_bool (pow2 1024) (round_Q (inject_Z (Z.of_N v))) then PosInfinity
      else Fin (Q2Qc (round_Q (inject_Z (Z.of_N v))))
  | _ => NaN
  end.

(** The exponent part of a decimal literal, if [s] is one or is empty;
    101 and 69 are [e] and [E], 45 and 43 the signs. *)
Definition read_exponent (s : list N) : option Z :=
  match s with
  | [] => Some 0%Z
  | c :: rest =>
      if ((c =? 101) || (c =? 69))%N then
        let '(negative, body) :=
          match rest with
          | sign :: r =>
              if (sign =? 45)%N then (true, r)
              else if (sign =? 43)%N then (false, r)
              else (false, rest)
          | [] => (false, rest)
          end in
        match read_digits 10 0 body with
        | (v, S _, []) => Some (if negative then - Z.of_N v else Z.of_N v)%Z
        | _ => None
        end
      else None
  end.

(** An unsigned decimal literal: digits, a fraction after the point (46),
    an exponent. *)
Definition read_decimal (s : list N) : option Q :=
  let '(whole, n1, after_whole) := read_digits 10 0 s in
  let '(mantissa, n2, after_fraction) :=
    match after_whole with
    | point :: r =>
        if (point =? 46)%N then read_digits 10 whole r
        else (whole, 0, after_whole)
    | [] => (whole, 0, after_whole)
    end in
  match (n1 + n2)%nat, read_exponent after_fraction with
  | S _, Some e =>
      Some (inject_Z (Z.of_N mantissa) * Qpower (10 # 1) (e - Z.of_nat n2))%Q
  | _, _ => None
  end.

(** The double nearest to a literal; from 2^1024 on it is infinite. *)
Definition read_unsigned (s : list N) : number :=
  if bool_decide (s = code_units "Infinity") then PosInfinity
  else match read_decimal s with
       | Some q =>
           if Qle_bool (pow2 1024) (round_Q q) then PosInfinity
           else Fin (Q2Qc (round_Q q))
       | None => NaN
       end.

Definition negate (n : number) : number :=
  match n with
  | NaN => NaN
  | NegInfinity => PosInfinity
  | Fin q => Fin (- q)%Qc
  | PosInfinity => NegInfinity
  end.

(** The prefix of a literal in another radix: [0] (48) and the letter. *)
Definition radix_of (s : list N) : option (N * list N) :=
  match s with
  | zero :: letter :: r =>
      if (zero =? 48)%N then
        if ((letter =? 120) || (letter =? 88))%N then Some (16%N, r)
        else if ((letter =? 111) || (letter =? 79))%N then Some (8%N, r)
        else if ((letter =? 98) || (letter =? 66))%N then Some (2%N, r)
        else None
      else None
  | _ => None
  end.

(** The numeric value of a string: white space around it is dropped, the
    empty string is 0, then a signed decimal literal or an unsigned
    hexadecimal, octal or binary one; anything else is NaN. *)
Definition read_number (s : string) : number :=
  match trim (code_units s) with
  | [] => Fin (Qc_of_Z 0)
  | first :: r =>
      match radix_of (first :: r) with
      | Some (radix, digits) => read_radix radix digits
      | None =>
          if (first =? 45)%N then negate (read_unsigned r)
          else if (first =? 43)%N then read_unsigned r
          else read_unsigned (first :: r)
      end
  end.

(** [Array.prototype.sort] as V8, the engine of Node, runs it on an array
    of fewer than 64 elements, where its TimSort works on a single run: the
    longest run at the front is found and, when it descends, reversed; each
    element after it is then put into the sorted front at the place a
    binary search finds.  Only the sign of each answer of the comparator is
    read.  (From 64 elements on V8 sorts runs of this kind and merges them;
    here longer arrays are sorted the same way as short ones.) *)

(** How many further elements continue the run that ends in [previous]. *)
Fixpoint run_tail {A : Type} (cmp : A → A → Z) (descending : bool)
  (previous : A) (rest : list A) : nat :=
  match rest with
  | [] => 0
  | current :: rest' =>
      let order := cmp current previous in
      if (if descending then order <? 0 else 0 <=? order)%Z
      then S (run_tail cmp descending current rest')
      else 0
  end.

(** What makes [current] continue a run after [previous]. *)
Definition in_run {A : Type} (cmp : A → A → Z) (descending : bool)
  (previous current : A) : Prop :=
  if descending then (cmp current previous < 0)%Z
  else (0 ≤ cmp current previous)%Z.

(** [CountAndMakeRun]: the run at the front, made ascending, and the
    elements after it. *)
Definition CountAndMakeRun {A : Type} (cmp : A → A → Z) (l : list A)
  : list A * list A :=
  match l with
  | first :: second :: rest =>
      let descending := (cmp second first <? 0)%Z in
      let runLength := 2 + run_tail cmp descending second rest in
      let run := firstn runLength l in
      (if descending then rev run else run, skipn runLength l)
  | _ => (l, [])
  end.

(** The binary search of [BinaryInsertionSort]: the place for [pivot]
    between [left] and [right]; [fuel] bounds the number of halvings. *)
Fixpoint search {A : Type} (cmp : A → A → Z) (pivot : A) (sorted : list A)
  (fuel left right : nat) : nat :=
  match fuel with
  | 0 => left
  | S fuel' =>
      if (left <? right)%nat then
        let mid := left + (right - left) / 2 in
        match sorted !! mid with
        | Some x =>
            if (cmp pivot x <? 0)%Z then search cmp pivot sorted fuel' left mid
            else search cmp pivot sorted fuel' (S mid) right
        | None => left
        end
      else left
  end.

Definition insert_pivot {A : Type} (cmp : A → A → Z) (sorted : list A)
  (pivot : A) : list A :=
  let left := search cmp pivot sorted (length sorted) 0 (length sorted) in
  firstn left sorted ++ pivot :: skipn left sorted.

Definition BinaryInsertionSort {A : Type} (cmp : A → A → Z)
  (sorted rest : list A) : list A :=
  fold_left (insert_pivot cmp) rest sorted.

Definition ArrayTimSort {A : Type} (cmp : A → A → Z) (l : list A) : list A :=
  let '(run, rest) := CountAndMakeRun cmp l in
  BinaryInsertionSort cmp run rest.

Definition reference_host : Host := {|
  StringToNumber := read_number;
  array_sort := @ArrayTimSort
|}.

(** ** The script at the end of the file

    [const API = new MovieAPI(moviesJson); console.log(API.findMovieById(15))].
    The file [movies.json] is not part of the sources: its content is the
    parameter [moviesJson]. *)

(** What the script writes: a line logged by a method, or the value that
    [findMovieById] returned, a movie or [undefined]. *)
Inductive printed : Type :=
  | PrintedLog (e : log_entry)
  | PrintedMovie (m : object)
  | PrintedUndefined.

Definition script `{Host} (random : nat → Qc) (moviesJson : list object)
  : list printed :=
  let API := constructor random moviesJson in
  let found := findMovieById (num_of_nat 15) API in
  List.map PrintedLog (console found)
  ++ [match result found with
      | Some m => PrintedMovie m
      | None => PrintedUndefined
      end].

(** ** Vocabulary for the further properties *)

(** A value that [Math.random()] can return. *)
Definition unit_draw (u : Qc) : Prop := (Qc_of_Z 0 ≤ u)%Qc ∧ (u < Qc_of_Z 1)%Qc.

(** The values that a call draws from [Math.random()]. *)
Definition draws (c : call) : list Qc :=
  match c with
  | AddMovie u _ => [u]
  | _ => []
  end.

(** An entry as the [Movie] typedef has it: without a [rating] of its own. *)
Definition without_rating (movie : object) : Prop := movie !! "rating" = None.

(** A number written with one decimal digit, between 1 and 5: the double
    nearest to [k/10] for an integer [k] from 10 to 50. *)
Definition one_decimal (n : number) : Prop :=
  ∃ (k : Z) (q : Qc),
    (10 ≤ k ≤ 50)%Z ∧ q = round_double (Qc_of_Z k / Qc_of_Z 10)%Qc ∧
    n = Fin q ∧ (Qc_of_Z 1 ≤ q)%Qc ∧ (q ≤ Qc_of_Z 5)%Qc.

(** Every [rating] is such a number. *)
Definition well_rated (l : list object) : Prop :=
  Forall (λ movie : object,
            ∃ n, movie !! "rating" = Some (VNum n) ∧ one_decimal n) l.

(** The calls that create a record. *)
Definition is_add (c : call) : bool :=
  match c with
  | AddMovie _ _ => true
  | _ => false
  end.

(** The properties of a stored record: those of the caller's record, as
    they are, and an [id] and a [rating]; nothing else. *)
Definition keeps (movie stored : object) : Prop :=
  (∀ (k : string) (v : value), movie !! k = Some v → stored !! k = Some v) ∧
  is_Some (stored !! "id") ∧ is_Some (stored !! "rating") ∧
  (∀ k : string, is_Some (stored !! k) →
                 k = "id" ∨ k = "rating" ∨ is_Some (movie !! k)).

(** * Properties *)

(** ** Numbers *)

Lemma num_eq_eq (a b : number) : num_eq a b = true → a = b.
Proof.
  destruct a, b; simpl; try discriminate; try reflexivity.
  intros E. apply bool_decide_eq_true in E. now subst.
Qed.

Lemma num_of_nat_inj (i j : nat) : num_of_nat i = num_of_nat j → i = j.
Proof.
  unfold num_of_nat. intros E. injection E as E. lia.
Qed.

(** ** Stamping *)

Lemma stamp_id (count : nat) (r : number) (movie : object) :
  stamp count r movie !! "id"
  = Some (default (VNum (num_of_nat count)) (movie !! "id")).
Proof.
  unfold stamp. rewrite lookup_union.
  destruct (movie !! "id") as [v|]; simpl.
  - now rewrite union_Some_l.
  - rewrite (left_id None _). now rewrite lookup_insert_eq.
Qed.

Lemma stamp_rating (count : nat) (r : number) (movie : object) :
  stamp count r movie !! "rating" = Some (default (VNum r) (movie !! "rating")).
Proof.
  unfold stamp. rewrite lookup_union.
  destruct (movie !! "rating") as [v|]; simpl.
  - now rewrite union_Some_l.
  - rewrite (left_id None _).
    rewrite lookup_insert_ne by discriminate. now rewrite lookup_singleton_eq.
Qed.

Lemma stamp_other (count : nat) (r : number) (movie : object) (k : string) :
  k ≠ "id" → k ≠ "rating" → stamp count r movie !! k = movie !! k.
Proof.
  intros N1 N2. unfold stamp. rewrite lookup_union.
  rewrite lookup_insert_ne by congruence.
  rewrite lookup_singleton_ne by congruence.
  now rewrite (right_id None _).
Qed.

Lemma stamp_id_fresh (count : nat) (r : number) (movie : object) :
  without_id movie → stamp count r movie !! "id" = Some (VNum (num_of_nat count)).
Proof. unfold without_id. intros E. now rewrite stamp_id, E. Qed.

Lemma stamp_all_count random (count : nat) (entries : list object) :
  (stamp_all random count entries).2 = count + length entries.
Proof.
  revert count. induction entries as [|movie rest IH]; intros count; simpl.
  - lia.
  - specialize (IH (S count)).
    destruct (stamp_all random (S count) rest) as [rest' count'].
    simpl in *. lia.
Qed.

Lemma stamp_all_lookup random (count : nat) (entries : list object)
  (i : nat) (movie : object) :
  entries !! i = Some movie →
  (stamp_all random count entries).1 !! i
  = Some (stamp (count + i) (generateRating (random (count + i))) movie).
Proof.
  revert count i. induction entries as [|first rest IH]; intros count i E.
  - discriminate.
  - simpl. specialize (IH (S count)).
    destruct (stamp_all random (S count) rest) as [rest' count'] eqn:R.
    destruct i as [|i]; simpl in *.
    + injection E as ->. now rewrite Nat.add_0_r.
    + rewrite (IH i E). now rewrite Nat.add_succ_r.
Qed.

Lemma stamp_all_length random (count : nat) (entries : list object) :
  length (stamp_all random count entries).1 = length entries.
Proof.
  revert count. induction entries as [|movie rest IH]; intros count; simpl.
  - reflexivity.
  - specialize (IH (S count)).
    destruct (stamp_all random (S count) rest) as [rest' count'].
    simpl in *. lia.
Qed.

Lemma constructor_movies random (entries : list object) :
  movies (constructor random entries) = (stamp_all random 0 entries).1.
Proof.
  unfold constructor. now destruct (stamp_all random 0 entries).
Qed.

Lemma constructor_idCount random (entries : list object) :
  idCount (constructor random entries) = length entries.
Proof.
  unfold constructor. pose proof (stamp_all_count random 0 entries) as E.
  destruct (stamp_all random 0 entries). simpl in *. lia.
Qed.

Lemma constructor_lookup random (entries : list object) (i : nat) (movie : object) :
  entries !! i = Some movie →
  movies (constructor random entries) !! i
  = Some (stamp i (generateRating (random i)) movie).
Proof.
  intros E. rewrite constructor_movies.
  now rewrite (stamp_all_lookup random 0 entries i movie E).
Qed.

Lemma constructor_length random (entries : list object) :
  length (movies (constructor random entries)) = length entries.
Proof. rewrite constructor_movies. apply stamp_all_length. Qed.


(** ** Orders *)

Lemma units_lt_asym (a b : list N) : units_lt a b = true → units_lt b a = false.
Proof.
  revert b. induction a as [|x a IH]; intros [|y b]; simpl;
    try discriminate; try reflexivity.
  destruct (N.ltb_spec x y), (N.ltb_spec y x); try discriminate;
    try reflexivity; try lia.
  apply IH.
Qed.

Lemma units_le_trans (a b c : list N) :
  units_lt b a = false → units_lt c b = false → units_lt c a = false.
Proof.
  revert b c. induction a as [|x a IH]; intros [|y b] [|z c]; simpl;
    try discriminate; try reflexivity.
  destruct (N.ltb_spec y x), (N.ltb_spec x y), (N.ltb_spec z y),
    (N.ltb_spec y z), (N.ltb_spec z x), (N.ltb_spec x z);
    try discriminate; try reflexivity; try lia.
  apply IH.
Qed.

(** A character beyond the 16 bits is two code units, the first of them
    below U+E000: it sorts before a character from U+E000 on, which its
    code point and its bytes follow. *)
Example string_gt_code_units :
  string_gt "～" "😀" = true ∧ string_gt "😀" "～" = false ∧
  code_units "～" = [65374%N] ∧ code_units "😀" = [55357%N; 56832%N].
Proof. repeat split. Qed.

Lemma string_le_total (s t : string) : string_le s t ∨ string_le t s.
Proof.
  unfold string_le, string_gt.
  destruct (units_lt (code_units t) (code_units s)) eqn:L; [right | now left].
  now apply units_lt_asym.
Qed.

Lemma string_le_trans (s t u : string) :
  string_le s t → string_le t u → string_le s u.
Proof. unfold string_le, string_gt. apply units_le_trans. Qed.

Lemma num_gt_le (a b : number) :
  ordered_number a → ordered_number b → num_gt a b = false ↔ num_le a b.
Proof.
  unfold ordered_number.
  destruct a, b; simpl; intros Na Nb; try congruence; try tauto;
    try (split; [discriminate | tauto]).
  rewrite bool_decide_eq_false. symmetry. apply Qcle_ngt.
Qed.

Lemma num_le_total (a b : number) :
  ordered_number a → ordered_number b → num_le a b ∨ num_le b a.
Proof.
  unfold ordered_number.
  destruct a, b; simpl; intros Na Nb; try congruence; try tauto.
  destruct (Qclt_le_dec q q0) as [L|L]; [left; now apply Qclt_le_weak | now right].
Qed.

Lemma num_le_trans (a b c : number) : num_le a b → num_le b c → num_le a c.
Proof.
  destruct a, b, c; simpl; try tauto. apply Qcle_trans.
Qed.

(** ** The sort of the reference host *)

Lemma StronglySorted_middle {A : Type} (R : A → A → Prop) (l1 l2 : list A) (x : A) :
  StronglySorted R (l1 ++ x :: l2) →
  Forall (λ y, R y x) l1 ∧ Forall (R x) l2.
Proof.
  induction l1 as [|y l1 IH]; simpl; intros S;
    apply StronglySorted_inv in S as [S Hd].
  - now split.
  - destruct (IH S) as [F1 F2]. split; [|exact F2].
    constructor; [|exact F1].
    apply Forall_app in Hd as [_ Hd]. now apply Forall_cons in Hd as [Hx _].
Qed.

Lemma StronglySorted_put {A : Type} (R : A → A → Prop) (l1 l2 : list A) (x : A) :
  StronglySorted R (l1 ++ l2) →
  Forall (λ y, R y x) l1 → Forall (R x) l2 →
  StronglySorted R (l1 ++ x :: l2).
Proof.
  induction l1 as [|y l1 IH]; simpl; intros S F1 F2.
  - now constructor.
  - apply StronglySorted_inv in S as [S Hd].
    apply Forall_cons in F1 as [Ryx F1].
    apply Forall_app in Hd as [Hd1 Hd2].
    constructor; [now apply IH|].
    apply Forall_app. split; [exact Hd1 | now constructor].
Qed.

Lemma StronglySorted_rev {A : Type} (R : A → A → Prop) (l : list A) :
  StronglySorted (flip R) l → StronglySorted R (rev l).
Proof.
  induction 1 as [|x l S IH Hx]; simpl; [constructor|].
  apply StronglySorted_put.
  - now rewrite app_nil_r.
  - apply Forall_forall. intros y Hy. rewrite Forall_forall in Hx. apply Hx.
    apply list_elem_of_In. apply list_elem_of_In, List.in_rev in Hy. exact Hy.
  - constructor.
Qed.

Lemma Sorted_strongly {A : Type} (R : A → A → Prop) (P : A → Prop) (l : list A) :
  (∀ a b c, P a → P b → P c → R a b → R b c → R a c) →
  Forall P l → Sorted R l → StronglySorted R l.
Proof.
  intros chain Pl S. induction S as [|a l S IH Hd]; [constructor|].
  apply Forall_cons in Pl as [Pa Pl]. specialize (IH Pl).
  constructor; [exact IH|].
  destruct Hd as [|b l' Rab]; [constructor|].
  apply StronglySorted_inv in IH as [_ Hb].
  apply Forall_cons in Pl as [Pb Pl'].
  constructor; [exact Rab|].
  rewrite Forall_forall in Hb, Pl' |- *. intros c Hc.
  apply (chain a b c); auto.
Qed.

Lemma Sorted_among_run {A : Type} (R R' : A → A → Prop) (P : A → Prop)
  (l : list A) :
  Forall P l → (∀ a b, P a → P b → R a b → R' a b) → Sorted R l → Sorted R' l.
Proof.
  intros Pl Imp S. induction S as [|a l S IH Hd]; [constructor|].
  apply Forall_cons in Pl as [Pa Pl]. constructor; [now apply IH|].
  destruct Hd as [|b l' Rab]; constructor.
  apply Forall_cons in Pl as [Pb _]. now apply Imp.
Qed.

Section TimSort.
Context {A : Type} (cmp : A → A → Z).

Lemma insert_pivot_perm (sorted : list A) (pivot : A) :
  insert_pivot cmp sorted pivot ≡ₚ pivot :: sorted.
Proof.
  unfold insert_pivot. rewrite <- Permutation_middle.
  now rewrite firstn_skipn.
Qed.

Lemma BinaryInsertionSort_perm (sorted rest : list A) :
  BinaryInsertionSort cmp sorted rest ≡ₚ sorted ++ rest.
Proof.
  unfold BinaryInsertionSort. revert sorted.
  induction rest as [|pivot rest IH]; intros sorted; simpl.
  - now rewrite app_nil_r.
  - rewrite IH, insert_pivot_perm. apply Permutation_middle.
Qed.

Lemma CountAndMakeRun_perm (l : list A) :
  (CountAndMakeRun cmp l).1 ++ (CountAndMakeRun cmp l).2 ≡ₚ l.
Proof.
  unfold CountAndMakeRun. destruct l as [|first [|second rest]].
  - reflexivity.
  - reflexivity.
  - cbv zeta. cbn [fst snd].
    set (n := 2 + run_tail cmp _ second rest).
    destruct (cmp second first <? 0)%Z.
    + rewrite <- (firstn_skipn n (first :: second :: rest)) at 3.
      apply Permutation_app_tail. symmetry. apply Permutation_rev.
    + now rewrite firstn_skipn.
Qed.

Lemma ArrayTimSort_perm (l : list A) : ArrayTimSort cmp l ≡ₚ l.
Proof.
  unfold ArrayTimSort. pose proof (CountAndMakeRun_perm l) as E.
  destruct (CountAndMakeRun cmp l) as [run rest]. simpl in E.
  now rewrite BinaryInsertionSort_perm.
Qed.

Variable P : A → Prop.
Hypothesis chain :
  ∀ a b c, P a → P b → P c → before cmp a b → before cmp b c → before cmp a c.
Hypothesis sign : ∀ a b, P a → P b → (0 < cmp a b)%Z → (cmp b a < 0)%Z.

Lemma not_before (a b : A) : P a → P b → (0 ≤ cmp b a)%Z → before cmp a b.
Proof.
  intros Pa Pb L. unfold before.
  destruct (Z.le_gt_cases (cmp a b) 0) as [B|B]; [exact B|].
  pose proof (sign a b Pa Pb). lia.
Qed.

Lemma search_step (pivot : A) (sorted : list A) (fuel left right : nat) :
  search cmp pivot sorted (S fuel) left right
  = if (left <? right)%nat then
      match sorted !! (left + (right - left) / 2) with
      | Some x =>
          if (cmp pivot x <? 0)%Z
          then search cmp pivot sorted fuel left (left + (right - left) / 2)
          else search cmp pivot sorted fuel (S (left + (right - left) / 2)) right
      | None => left
      end
    else left.
Proof. reflexivity. Qed.

Lemma search_place (pivot : A) (sorted : list A) :
  P pivot → Forall P sorted → StronglySorted (before cmp) sorted →
  ∀ fuel left right : nat,
    (left ≤ right)%nat → (right ≤ length sorted)%nat → (right - left ≤ fuel)%nat →
    Forall (λ x, before cmp x pivot) (firstn left sorted) →
    Forall (before cmp pivot) (skipn right sorted) →
    Forall (λ x, before cmp x pivot)
      (firstn (search cmp pivot sorted fuel left right) sorted) ∧
    Forall (before cmp pivot)
      (skipn (search cmp pivot sorted fuel left right) sorted).
Proof.
  intros Pp Ps Srt. induction fuel as [|fuel IH]; intros left right L R F Lo Hi.
  - simpl. assert (E : left = right) by lia. subst. now split.
  - rewrite search_step. destruct (left <? right)%nat eqn:Lt.
    + apply Nat.ltb_lt in Lt.
      set (mid := left + (right - left) / 2).
      assert (Half : (right - left) / 2 < right - left).
      { apply Nat.div_lt; lia. }
      assert (M : mid < length sorted) by (unfold mid; lia).
      destruct (lookup_lt_is_Some_2 sorted mid M) as [x Ex]. rewrite Ex.
      pose proof (take_drop_middle sorted mid x Ex) as Split.
      assert (Around : Forall (λ y, before cmp y x) (take mid sorted)
                       ∧ Forall (before cmp x) (drop (S mid) sorted)).
      { apply StronglySorted_middle. now rewrite Split. }
      destruct Around as [Below Above].
      assert (Px : P x).
      { rewrite Forall_forall in Ps. apply Ps. now apply (list_elem_of_lookup_2 _ mid). }
      assert (Pt : ∀ k y, y ∈ take k sorted → P y).
      { intros k y Hy. rewrite Forall_forall in Ps. apply Ps.
        exact (subseteq_take k sorted y Hy). }
      assert (Pd : ∀ k y, y ∈ drop k sorted → P y).
      { intros k y Hy. rewrite Forall_forall in Ps. apply Ps.
        exact (subseteq_drop k sorted y Hy). }
      destruct (cmp pivot x <? 0)%Z eqn:C.
      * apply Z.ltb_lt in C.
        apply IH; try (unfold mid; lia); [exact Lo|].
        change (skipn mid sorted) with (drop mid sorted).
        rewrite (drop_S sorted x mid Ex).
        constructor; [unfold before; lia|].
        apply Forall_forall. intros y Hy.
        apply (chain pivot x y); eauto; [unfold before; lia|].
        rewrite Forall_forall in Above. now apply Above.
      * apply Z.ltb_ge in C.
        assert (Bx : before cmp x pivot) by (now apply not_before).
        apply IH; try (unfold mid; lia); [|exact Hi].
        change (firstn (S mid) sorted) with (take (S mid) sorted).
        rewrite (take_S_r sorted mid x Ex).
        apply Forall_app. split; [|now constructor].
        apply Forall_forall. intros y Hy.
        apply (chain y x pivot); eauto.
        rewrite Forall_forall in Below. now apply Below.
    + apply Nat.ltb_ge in Lt. assert (E : left = right) by lia. subst. now split.
Qed.

Lemma insert_pivot_sorted (sorted : list A) (pivot : A) :
  P pivot → Forall P sorted → StronglySorted (before cmp) sorted →
  StronglySorted (before cmp) (insert_pivot cmp sorted pivot).
Proof.
  intros Pp Ps S. unfold insert_pivot.
  destruct (search_place pivot sorted Pp Ps S (length sorted) 0 (length sorted))
    as [Lo Hi]; try lia.
  - constructor.
  - rewrite skipn_all. constructor.
  - apply StronglySorted_put; [now rewrite firstn_skipn | exact Lo | exact Hi].
Qed.

Lemma BinaryInsertionSort_sorted (sorted rest : list A) :
  Forall P sorted → Forall P rest → StronglySorted (before cmp) sorted →
  StronglySorted (before cmp) (BinaryInsertionSort cmp sorted rest).
Proof.
  unfold BinaryInsertionSort. revert sorted.
  induction rest as [|pivot rest IH]; intros sorted Ps Pr S; simpl; [exact S|].
  apply Forall_cons in Pr as [Pp Pr].
  apply IH; [|exact Pr | now apply insert_pivot_sorted].
  rewrite insert_pivot_perm. now constructor.
Qed.

Lemma run_tail_run (descending : bool) (previous : A) (rest : list A) :
  Sorted (in_run cmp descending)
    (previous :: firstn (run_tail cmp descending previous rest) rest).
Proof.
  revert previous. induction rest as [|current rest IH]; intros previous; simpl.
  - repeat constructor.
  - destruct (if descending then (cmp current previous <? 0)%Z
              else (0 <=? cmp current previous)%Z) eqn:C; simpl.
    + constructor; [apply IH|]. constructor. unfold in_run.
      destruct descending; [now apply Z.ltb_lt | now apply Z.leb_le].
    + repeat constructor.
Qed.

Lemma CountAndMakeRun_sorted (l : list A) :
  Forall P l → StronglySorted (before cmp) (CountAndMakeRun cmp l).1.
Proof.
  intros Pl. unfold CountAndMakeRun. destruct l as [|first [|second rest]].
  - constructor.
  - repeat constructor.
  - cbv zeta. cbn [fst].
    set (descending := (cmp second first <? 0)%Z).
    set (run := firstn (2 + run_tail cmp descending second rest)
                  (first :: second :: rest)).
    assert (Pr : Forall P run).
    { unfold run. now apply Forall_take. }
    assert (Run : Sorted (in_run cmp descending) run).
    { unfold run. simpl. constructor; [apply run_tail_run|].
      constructor. unfold in_run, descending.
      destruct (cmp second first <? 0)%Z eqn:C;
        [now apply Z.ltb_lt | now apply Z.ltb_ge]. }
    destruct descending.
    + apply StronglySorted_rev.
      apply (Sorted_strongly _ P); [|exact Pr|].
      * intros a b c Pa Pb Pc Rab Rbc. unfold flip in *. now apply (chain c b a).
      * eapply Sorted_among_run; [exact Pr | | exact Run].
        intros a b Pa Pb Rab. unfold flip, before. simpl in Rab. lia.
    + apply (Sorted_strongly _ P); [exact chain | exact Pr|].
      eapply Sorted_among_run; [exact Pr | | exact Run].
      intros a b Pa Pb Rab. simpl in Rab. now apply not_before.
Qed.

Lemma ArrayTimSort_sorted (l : list A) :
  Forall P l → StronglySorted (before cmp) (ArrayTimSort cmp l).
Proof.
  intros Pl. unfold ArrayTimSort.
  pose proof (CountAndMakeRun_perm l) as E.
  pose proof (CountAndMakeRun_sorted l Pl) as S.
  destruct (CountAndMakeRun cmp l) as [run rest]. simpl in E, S.
  rewrite <- E in Pl. apply Forall_app in Pl as [Prun Prest].
  now apply BinaryInsertionSort_sorted.
Qed.

End TimSort.

Lemma reference_sort_laws : SortLaws reference_host.
Proof.
  split; simpl.
  - intros A cmp l. apply ArrayTimSort_perm.
  - intros A cmp l _ chain sign.
    apply (ArrayTimSort_sorted cmp (λ a, a ∈ l)); auto.
    now apply Forall_forall.
Qed.

(** ** Rounding

    Rounding to the nearest double is monotone and leaves the integers up
    to 2^53 as they are; what [generateRating] returns is bounded from these
    two facts. *)

Lemma Qfloor_half (n : Z) : Qfloor (Qc_of_Z n + Q2Qc (1 # 2))%Qc = n.
Proof.
  apply Z.le_antisymm.
  - apply Z.lt_succ_r. rewrite <- Z.add_1_r.
    rewrite Zlt_Qlt. eapply Qle_lt_trans; [apply Qfloor_le|].
    simpl. rewrite !Qred_correct. unfold Qlt; simpl. lia.
  - rewrite <- (Qfloor_Z n) at 1. apply Qfloor_resp_le.
    simpl. rewrite !Qred_correct. unfold Qle; simpl. lia.
Qed.

Lemma Qc_of_Z_div_cancel (n d : Z) :
  (0 < d)%Z → (Qc_of_Z (n * d) / Qc_of_Z d)%Qc = Qc_of_Z n.
Proof.
  intros D. rewrite Z2Qc_inj_mul. unfold Qcdiv.
  rewrite <- Qcmult_assoc, Qcmult_inv_r, Qcmult_1_r; [reflexivity|].
  intros E. rewrite <- Z2Qc_inj_0 in E. apply Z2Qc_inj in E. lia.
Qed.

Lemma Qc_div_le_compat (x y : Qc) (d : Z) :
  (0 < d)%Z → (x ≤ y)%Qc → (x / Qc_of_Z d ≤ y / Qc_of_Z d)%Qc.
Proof.
  intros D L. unfold Qcdiv. apply Qcmult_le_mono_nonneg_r; [|exact L].
  apply Qclt_le_weak, Qcinv_pos.
  rewrite <- Z2Qc_inj_0. now apply (proj1 (Z2Qc_inj_lt 0 d)).
Qed.

Section DoubleRounding.
Local Open Scope Q_scope.

Lemma pow2_pos z : 0 < pow2 z.
Proof. apply Qpower_0_lt. reflexivity. Qed.

Lemma pow2_add a b : pow2 (a + b) == pow2 a * pow2 b.
Proof. apply Qpower_plus. discriminate. Qed.

Lemma pow2_le a b : (a <= b)%Z -> pow2 a <= pow2 b.
Proof. intros L. apply Qpower_le_compat_l; [exact L|]. discriminate. Qed.

Lemma pow2_lt_inv a b : pow2 a < pow2 b -> (a < b)%Z.
Proof.
  intros L. destruct (Z.lt_ge_cases a b) as [|G]; [assumption|].
  apply pow2_le in G. lra.
Qed.

Lemma pow2_Z n : (0 <= n)%Z -> pow2 n == inject_Z (2 ^ n).
Proof. intros N. unfold pow2. now rewrite Zpower_Qpower. Qed.

Lemma round_half_even_cases x :
  (round_half_even x = Qfloor (x + (1 # 2)) /\
   ~ (x + (1#2) == inject_Z (Qfloor (x + (1 # 2))) /\ Z.odd (Qfloor (x + (1 # 2))) = true)) \/
  (round_half_even x = (Qfloor (x + (1 # 2)) - 1)%Z /\
   x + (1#2) == inject_Z (Qfloor (x + (1 # 2))) /\ Z.odd (Qfloor (x + (1 # 2))) = true).
Proof.
  unfold round_half_even.
  destruct (Qeq_bool (x + (1 # 2)) (inject_Z (Qfloor (x + (1 # 2))))) eqn:E;
    destruct (Z.odd (Qfloor (x + (1 # 2)))) eqn:O; unfold andb.
  - apply Qeq_bool_iff in E. right. split; [reflexivity|]. split; [exact E | reflexivity].
  - left. split; [reflexivity|]. intros [_ ?]. discriminate.
  - left. split; [reflexivity|]. intros [E' _]. apply Qeq_bool_neq in E. contradiction.
  - left. split; [reflexivity|]. intros [_ ?]. discriminate.
Qed.

Lemma round_half_even_Z n : round_half_even (inject_Z n) = n.
Proof.
  assert (F : Qfloor (inject_Z n + (1 # 2)) = n).
  { apply Z.le_antisymm.
    - apply Z.lt_succ_r. rewrite <- Z.add_1_r.
      rewrite Zlt_Qlt. eapply Qle_lt_trans; [apply Qfloor_le|].
      rewrite inject_Z_plus. change (inject_Z 1) with 1. lra.
    - rewrite <- (Qfloor_Z n) at 1. apply Qfloor_resp_le. lra. }
  unfold round_half_even. rewrite F.
  destruct (Qeq_bool (inject_Z n + (1 # 2)) (inject_Z n)) eqn:E; [|reflexivity].
  apply Qeq_bool_iff in E. lra.
Qed.

Lemma round_half_even_mono x y : x <= y -> (round_half_even x <= round_half_even y)%Z.
Proof.
  intros L.
  assert (F : (Qfloor (x + (1 # 2)) <= Qfloor (y + (1 # 2)))%Z)
    by (apply Qfloor_resp_le; lra).
  destruct (round_half_even_cases x) as [[Rx Nx]|[Rx _]], (round_half_even_cases y) as [[Ry _]|[Ry [Ey Oy]]];
    rewrite Rx, Ry; try lia.
  destruct (Z.eq_dec (Qfloor (x + (1 # 2))) (Qfloor (y + (1 # 2)))) as [E|N]; [|lia].
  exfalso. apply Nx. rewrite E. split; [|exact Oy].
  pose proof (Qfloor_le (x + (1#2))) as Lx. rewrite E in Lx. lra.
Qed.

Lemma pow2_log2 (n : Z) :
  (0 < n)%Z -> pow2 (Z.log2 n) <= inject_Z n /\ inject_Z n < pow2 (Z.log2 n + 1).
Proof.
  intros P. destruct (Z.log2_spec n P) as [L U].
  pose proof (Z.log2_nonneg n) as N.
  rewrite !pow2_Z by lia. rewrite <- Zle_Qle, <- Zlt_Qlt.
  split; [exact L|]. now rewrite Z.add_1_r.
Qed.

Lemma binade_spec x :
  0 < x -> pow2 (binade x) <= x /\ x < pow2 (binade x + 1).
Proof.
  intros P. unfold binade.
  set (a := Z.log2 (Qnum x)). set (b := Z.log2 (Z.pos (Qden x))).
  assert (Pn : (0 < Qnum x)%Z).
  { destruct x as [n d]. unfold Qlt in P. simpl in *. lia. }
  destruct (pow2_log2 (Qnum x) Pn) as [La Ua]. fold a in La, Ua.
  destruct (pow2_log2 (Z.pos (Qden x)) eq_refl) as [Lb Ub]. fold b in Lb, Ub.
  assert (E : x * inject_Z (Z.pos (Qden x)) == inject_Z (Qnum x)).
  { destruct x as [n d]. unfold Qeq, Qmult, inject_Z. simpl. lia. }
  set (N := inject_Z (Qnum x)) in *. set (D := inject_Z (Z.pos (Qden x))) in *.
  pose proof (pow2_pos b) as Pb. pose proof (pow2_pos (a - b)) as Pc.
  pose proof (pow2_pos (a - b - 1)) as Pc'.
  assert (A1 : pow2 (a + 1) == pow2 (a - b + 1) * pow2 b).
  { rewrite <- pow2_add. now replace (a - b + 1 + b)%Z with (a + 1)%Z by lia. }
  assert (A2 : pow2 a == pow2 (a - b - 1) * pow2 (b + 1)).
  { rewrite <- pow2_add. now replace (a - b - 1 + (b + 1))%Z with a by lia. }
  assert (Up : x < pow2 (a - b + 1)).
  { apply Qnot_le_lt. intros C.
    assert (pow2 (a - b + 1) * pow2 b <= x * D).
    { apply Qmult_le_compat_nonneg; split; try lra; apply Qlt_le_weak, pow2_pos. }
    lra. }
  assert (Lo : pow2 (a - b - 1) <= x).
  { apply Qnot_lt_le. intros C.
    assert (x * D < pow2 (a - b - 1) * pow2 (b + 1)).
    { apply Qmult_lt_compat_nonneg; split; lra. }
    lra. }
  destruct (Qle_bool (pow2 (a - b)) x) eqn:T.
  - apply Qle_bool_iff in T. split; assumption.
  - assert (T' : x < pow2 (a - b)).
    { apply Qnot_le_lt. intros C. apply Qle_bool_iff in C. congruence. }
    split; [exact Lo|]. now replace (a - b - 1 + 1)%Z with (a - b)%Z by lia.
Qed.

Lemma binade_mono x y : 0 < x -> x <= y -> (binade x <= binade y)%Z.
Proof.
  intros P L.
  destruct (binade_spec x P) as [Lx _].
  destruct (binade_spec y) as [_ Uy]; [lra|].
  assert (T : pow2 (binade x) < pow2 (binade y + 1)) by lra.
  apply pow2_lt_inv in T. lia.
Qed.

Lemma binade_unique x e : pow2 e <= x -> x < pow2 (e + 1) -> binade x = e.
Proof.
  intros L U. pose proof (pow2_pos e) as P.
  destruct (binade_spec x) as [L' U']; [lra|].
  assert (T1 : pow2 e < pow2 (binade x + 1)) by lra.
  assert (T2 : pow2 (binade x) < pow2 (e + 1)) by lra.
  apply pow2_lt_inv in T1, T2. lia.
Qed.

Lemma round_half_even_comp x y : x == y -> round_half_even x = round_half_even y.
Proof.
  intros E. apply Z.le_antisymm; apply round_half_even_mono; lra.
Qed.

Lemma div_pow2 x q : x / pow2 q == x * pow2 (- q).
Proof. unfold pow2, Qdiv. now rewrite Qpower_opp. Qed.

Lemma pow2_cancel q : pow2 (- q) * pow2 q == 1.
Proof. rewrite <- pow2_add. now replace (- q + q)%Z with 0%Z by lia. Qed.

Lemma in_units_mono q x y : x <= y -> in_units q x <= in_units q y.
Proof.
  intros L. unfold in_units. pose proof (pow2_pos q) as P.
  apply Qmult_le_compat_r; [|lra].
  rewrite <- Zle_Qle. apply round_half_even_mono.
  pose proof (pow2_pos (- q)) as P'.
  rewrite !div_pow2. apply Qmult_le_compat_r; lra.
Qed.

Lemma in_units_exact q t : (q <= t)%Z -> in_units q (pow2 t) == pow2 t.
Proof.
  intros L. unfold in_units.
  assert (E : pow2 t / pow2 q == inject_Z (2 ^ (t - q))).
  { rewrite div_pow2, <- pow2_add, <- pow2_Z by lia.
    now replace (t + - q)%Z with (t - q)%Z by lia. }
  rewrite (round_half_even_comp _ _ E), round_half_even_Z, <- pow2_Z, <- pow2_add by lia.
  now replace (t - q + q)%Z with t by lia.
Qed.

Lemma in_units_Z q n : (q <= 0)%Z -> in_units q (inject_Z n) == inject_Z n.
Proof.
  intros L. unfold in_units.
  assert (E : inject_Z n / pow2 q == inject_Z (n * 2 ^ (- q))).
  { rewrite div_pow2, inject_Z_mult, <- pow2_Z by lia. reflexivity. }
  rewrite (round_half_even_comp _ _ E), round_half_even_Z, inject_Z_mult, <- pow2_Z by lia.
  rewrite <- Qmult_assoc, pow2_cancel. lra.
Qed.

Lemma round_positive_mono x y :
  0 < x -> x <= y -> round_positive x <= round_positive y.
Proof.
  intros P L. change (in_units (unit_of x) x <= in_units (unit_of y) y).
  pose proof (binade_mono x y P L) as B.
  destruct (Z.eq_dec (unit_of x) (unit_of y)) as [E|N].
  - rewrite E. now apply in_units_mono.
  - unfold unit_of in *.
    destruct (binade_spec x P) as [_ Ux].
    destruct (binade_spec y) as [Ly _]; [lra|].
    set (t := Z.max (binade x) (-1022)) in *.
    apply Qle_trans with (pow2 (t + 1)).
    + rewrite <- (in_units_exact (t - 52) (t + 1)) by lia.
      apply in_units_mono.
      apply Qle_trans with (pow2 (binade x + 1)); [lra|]. apply pow2_le. lia.
    + apply Qle_trans with (pow2 (binade y)); [apply pow2_le; lia|].
      rewrite <- (in_units_exact (Z.max (binade y) (-1022) - 52) (binade y)) by lia.
      now apply in_units_mono.
Qed.

Lemma round_positive_nonneg x : 0 <= x -> 0 <= round_positive x.
Proof.
  intros P. unfold round_positive. pose proof (pow2_pos (unit_of x)) as Pq.
  fold (unit_of x). apply Qmult_le_0_compat; [|lra].
  change 0 with (inject_Z 0). rewrite <- Zle_Qle.
  rewrite <- (round_half_even_Z 0). apply round_half_even_mono.
  change (inject_Z 0) with 0. rewrite div_pow2.
  pose proof (pow2_pos (- unit_of x)). apply Qmult_le_0_compat; lra.
Qed.

Lemma round_Q_mono x y : x <= y -> round_Q x <= round_Q y.
Proof.
  intros L. unfold round_Q.
  destruct (Qcompare_spec x 0) as [Cx|Cx|Cx], (Qcompare_spec y 0) as [Cy|Cy|Cy];
    try lra.
  - apply round_positive_nonneg. lra.
  - pose proof (round_positive_nonneg (- x)). lra.
  - assert (round_positive (- y) <= round_positive (- x))
      by (apply round_positive_mono; lra).
    lra.
  - pose proof (round_positive_nonneg (- x)).
    pose proof (round_positive_nonneg y). lra.
  - now apply round_positive_mono.
Qed.

Lemma round_positive_Z n :
  (0 < n <= 2 ^ 53)%Z -> round_positive (inject_Z n) == inject_Z n.
Proof.
  intros [P U]. change (in_units (unit_of (inject_Z n)) (inject_Z n) == inject_Z n).
  destruct (pow2_log2 n P) as [Lo Up].
  assert (B : binade (inject_Z n) = Z.log2 n) by now apply binade_unique.
  pose proof (Z.log2_nonneg n) as N0.
  assert (N1 : (Z.log2 n <= 53)%Z).
  { apply Z.log2_le_mono in U. now rewrite Z.log2_pow2 in U by lia. }
  unfold unit_of. rewrite B.
  destruct (Z.eq_dec (Z.log2 n) 53%Z) as [E|N].
  - assert (n = 2 ^ 53)%Z as ->.
    { destruct (Z.log2_spec n P) as [L _]. rewrite E in L. lia. }
    rewrite E. change (inject_Z (2 ^ 53)) with (pow2 53) at 1.
    rewrite in_units_exact by lia. reflexivity.
  - apply in_units_Z. lia.
Qed.

Lemma round_Q_Z n : (Z.abs n <= 2 ^ 53)%Z -> round_Q (inject_Z n) == inject_Z n.
Proof.
  intros B. unfold round_Q.
  destruct (Qcompare_spec (inject_Z n) 0) as [C|C|C].
  - lra.
  - change 0 with (inject_Z 0) in C. rewrite <- Zlt_Qlt in C.
    rewrite <- inject_Z_opp, round_positive_Z by lia.
    rewrite inject_Z_opp. lra.
  - change 0 with (inject_Z 0) in C. rewrite <- Zlt_Qlt in C.
    apply round_positive_Z. lia.
Qed.

(** The double written 0.1, and the sum 0.1 + 0.2, which is not the
    double written 0.3. *)
Example round_Q_tenth :
  round_Q (1 # 10) == 3602879701896397 # 36028797018963968.
Proof. now vm_compute. Qed.

Example round_Q_sum :
  round_Q (round_Q (1 # 10) + round_Q (2 # 10))
  == 5404319552844596 # 18014398509481984 /\
  round_Q (3 # 10) == 5404319552844595 # 18014398509481984.
Proof. split; now vm_compute. Qed.

End DoubleRounding.

Lemma round_double_mono (x y : Qc) :
  (x ≤ y)%Qc → (round_double x ≤ round_double y)%Qc.
Proof.
  intros L. unfold round_double, Qcle. simpl. rewrite !Qred_correct.
  now apply round_Q_mono.
Qed.

Lemma round_double_int (z : Z) :
  (Z.abs z ≤ 2 ^ 53)%Z → round_double (Qc_of_Z z) = Qc_of_Z z.
Proof.
  intros B. apply Qc_is_canon. unfold round_double. simpl.
  rewrite Qred_correct. now apply round_Q_Z.
Qed.

Lemma round_double_between (lo hi : Z) (x : Qc) :
  (Z.abs lo ≤ 2 ^ 53)%Z → (Z.abs hi ≤ 2 ^ 53)%Z →
  (Qc_of_Z lo ≤ x)%Qc → (x ≤ Qc_of_Z hi)%Qc →
  (Qc_of_Z lo ≤ round_double x)%Qc ∧ (round_double x ≤ Qc_of_Z hi)%Qc.
Proof.
  intros Blo Bhi L U. split.
  - rewrite <- (round_double_int lo Blo). now apply round_double_mono.
  - rewrite <- (round_double_int hi Bhi). now apply round_double_mono.
Qed.

Lemma Math_round_between (lo hi : Z) (x : Qc) :
  (Qc_of_Z lo ≤ x)%Qc → (x ≤ Qc_of_Z hi)%Qc → (lo ≤ Math_round x ≤ hi)%Z.
Proof.
  intros L U. unfold Math_round. split.
  - rewrite <- (Qfloor_half lo) at 1. apply Qfloor_resp_le.
    now apply (proj1 (Qcplus_le_mono_r _ _ (Q2Qc (1 # 2)))).
  - rewrite <- (Qfloor_half hi) at 1. apply Qfloor_resp_le.
    now apply (proj1 (Qcplus_le_mono_r _ _ (Q2Qc (1 # 2)))).
Qed.


(** ** Searching an array *)

Lemma find_split {A : Type} (p : A → bool) (l : list A) (x : A) :
  List.find p l = Some x →
  ∃ l1 l2, l = l1 ++ x :: l2 ∧ p x = true ∧ Forall (λ y, p y = false) l1.
Proof.
  induction l as [|y rest IH]; simpl; [discriminate|].
  destruct (p y) eqn:Py.
  - intros [= ->]. exists [], rest. repeat split; [exact Py | constructor].
  - intros F. destruct (IH F) as (l1 & l2 & -> & Px & Hl1).
    exists (y :: l1), l2. repeat split; [exact Px | now constructor].
Qed.

Lemma find_first {A : Type} (p : A → bool) (l1 l2 : list A) (x : A) :
  Forall (λ y, p y = false) l1 → p x = true →
  List.find p (l1 ++ x :: l2) = Some x.
Proof.
  intros Hl1 Px. induction Hl1 as [|y l1 Py _ IH]; simpl.
  - now rewrite Px.
  - now rewrite Py.
Qed.

Lemma find_is_Some {A : Type} (p : A → bool) (l : list A) (x : A) :
  x ∈ l → p x = true → ∃ y, List.find p l = Some y.
Proof.
  intros In Px. destruct (List.find p l) as [y|] eqn:F; [now exists y|].
  apply list_elem_of_In in In.
  pose proof (List.find_none p l F x In). congruence.
Qed.

Lemma filter_all {A : Type} (q : A → bool) (l : list A) :
  Forall (λ y, q y = true) l → List.filter q l = l.
Proof.
  induction 1 as [|y l Qy _ IH]; simpl; [reflexivity|].
  now rewrite Qy, IH.
Qed.

Lemma findIndex_split {A : Type} (p : A → bool) (l : list A) (i : nat) :
  findIndex p l = Some i →
  ∃ l1 x l2, l = l1 ++ x :: l2 ∧ length l1 = i ∧ p x = true ∧
             Forall (λ y, p y = false) l1.
Proof.
  revert i. induction l as [|y rest IH]; intros i; simpl; [discriminate|].
  destruct (p y) eqn:Py.
  - intros [= <-]. exists [], y, rest. repeat split; [exact Py | constructor].
  - destruct (findIndex p rest) as [j|] eqn:F; simpl; [|discriminate].
    intros [= <-]. destruct (IH j eq_refl) as (l1 & x & l2 & -> & L & Px & Hl1).
    exists (y :: l1), x, l2. repeat split; simpl; [lia | exact Px | now constructor].
Qed.

Lemma findIndex_is_Some {A : Type} (p : A → bool) (l : list A) (x : A) :
  x ∈ l → p x = true → ∃ i, findIndex p l = Some i.
Proof.
  intros In Px. induction In as [x rest|x y rest _ IH]; simpl.
  - rewrite Px. now exists 0.
  - destruct (p y); [now exists 0|].
    destruct (IH Px) as [i ->]. now exists (S i).
Qed.

Lemma findIndex_None {A : Type} (p : A → bool) (l : list A) :
  Forall (λ y, p y = false) l → findIndex p l = None.
Proof.
  induction 1 as [|y l Py _ IH]; simpl; [reflexivity|].
  now rewrite Py, IH.
Qed.

(** ** Ids *)

Lemma ids_app (l1 l2 : list object) : ids (l1 ++ l2) = ids l1 ++ ids l2.
Proof. apply List.map_app. Qed.

Lemma elem_of_ids (movie : object) (l : list object) :
  movie ∈ l → movie !! "id" ∈ ids l.
Proof.
  intros In. apply list_elem_of_In, List.in_map. now apply list_elem_of_In.
Qed.

Lemma loose_eq_num_numeric `{Host} (movie : object) (id : number) :
  (∃ n, movie !! "id" = Some (VNum n)) →
  loose_eq_num (movie !! "id") id = strict_eq_num (movie !! "id") id.
Proof. intros [n ->]. reflexivity. Qed.

Lemma strict_eq_num_id (movie : object) (id : number) :
  strict_eq_num (movie !! "id") id = true → movie !! "id" = Some (VNum id).
Proof.
  unfold strict_eq_num. destruct (movie !! "id") as [[|n| |]|]; try discriminate.
  intros E. now rewrite (num_eq_eq n id E).
Qed.

Lemma title_keeps_id (movie : object) (title : string) :
  <["title" := VStr title]> movie !! "id" = movie !! "id".
Proof. now rewrite lookup_insert_ne by discriminate. Qed.

(** ** Comparators and slices *)

Lemma StronglySorted_among {A : Type} (R R' : A → A → Prop) (l : list A) :
  (∀ a b, a ∈ l → b ∈ l → R a b → R' a b) →
  StronglySorted R l → StronglySorted R' l.
Proof.
  intros Imp S. induction S as [|x l S IH Hx]; constructor.
  - apply IH. intros a b Ha Hb. apply Imp; now right.
  - rewrite Forall_forall in Hx |- *. intros y Hy.
    apply Imp; [left | now right | now apply Hx].
Qed.

Section Comparators.
Context `{Host}.

Lemma by_title_before (m1 m2 : object) (s t : string) :
  m1 !! "title" = Some (VStr s) → m2 !! "title" = Some (VStr t) →
  before by_title m1 m2 ↔ string_le s t.
Proof.
  intros E1 E2. unfold before, by_title, js_gt, string_le. rewrite E1, E2. simpl.
  destruct (string_gt s t); split; intros; try reflexivity; try discriminate; lia.
Qed.

Lemma by_rating_before (m1 m2 : object) (a b : number) :
  m1 !! "rating" = Some (VNum a) → m2 !! "rating" = Some (VNum b) →
  ordered_number a → ordered_number b →
  before by_rating m1 m2 ↔ num_le a b.
Proof.
  intros E1 E2 Oa Ob. unfold before, by_rating, js_gt. rewrite E1, E2. simpl.
  rewrite <- (num_gt_le a b Oa Ob).
  destruct (num_gt a b); split; intros; try reflexivity; try discriminate; lia.
Qed.

Lemma by_title_sign (m1 m2 : object) :
  by_title m1 m2 = 1%Z ∨ by_title m1 m2 = (-1)%Z.
Proof. unfold by_title. destruct (js_gt _ _); auto. Qed.

Lemma by_rating_sign (m1 m2 : object) :
  by_rating m1 m2 = 1%Z ∨ by_rating m1 m2 = (-1)%Z.
Proof. unfold by_rating. destruct (js_gt _ _); auto. Qed.

Lemma by_title_sorted `{!SortLaws H} (l : list object) :
  titled l → StronglySorted title_le (array_sort by_title l).
Proof.
  intros T. unfold titled in T. rewrite Forall_forall in T.
  apply (StronglySorted_among (before by_title)).
  - intros a b Ha Hb B. rewrite array_sort_perm in Ha, Hb.
    destruct (T a Ha) as [s Ea], (T b Hb) as [t Eb].
    exists s, t. repeat split; try assumption.
    now apply (by_title_before a b s t Ea Eb).
  - apply array_sort_sorted.
    + intros a b Ha Hb. destruct (T a Ha) as [s Ea], (T b Hb) as [t Eb].
      rewrite (by_title_before a b s t Ea Eb), (by_title_before b a t s Eb Ea).
      apply string_le_total.
    + intros a b c Ha Hb Hc.
      destruct (T a Ha) as [s Ea], (T b Hb) as [t Eb], (T c Hc) as [u Ec].
      rewrite (by_title_before a b s t Ea Eb), (by_title_before b c t u Eb Ec),
        (by_title_before a c s u Ea Ec).
      apply string_le_trans.
    + intros a b Ha Hb After.
      destruct (T a Ha) as [s Ea], (T b Hb) as [t Eb].
      assert (B : before by_title b a).
      { apply (by_title_before b a t s Eb Ea).
        destruct (string_le_total s t) as [L|L]; [|exact L].
        apply (by_title_before a b s t Ea Eb) in L. unfold before in L. lia. }
      unfold before in B. destruct (by_title_sign b a); lia.
Qed.

Lemma by_rating_sorted `{!SortLaws H} (l : list object) :
  rated l → StronglySorted rating_le (array_sort by_rating l).
Proof.
  intros T. unfold rated in T. rewrite Forall_forall in T.
  apply (StronglySorted_among (before by_rating)).
  - intros a b Ha Hb B. rewrite array_sort_perm in Ha, Hb.
    destruct (T a Ha) as (x & Ea & Ox), (T b Hb) as (y & Eb & Oy).
    exists x, y. repeat split; try assumption.
    now apply (by_rating_before a b x y Ea Eb Ox Oy).
  - apply array_sort_sorted.
    + intros a b Ha Hb.
      destruct (T a Ha) as (x & Ea & Ox), (T b Hb) as (y & Eb & Oy).
      rewrite (by_rating_before a b x y Ea Eb Ox Oy),
        (by_rating_before b a y x Eb Ea Oy Ox).
      now apply num_le_total.
    + intros a b c Ha Hb Hc.
      destruct (T a Ha) as (x & Ea & Ox), (T b Hb) as (y & Eb & Oy),
        (T c Hc) as (z & Ec & Oz).
      rewrite (by_rating_before a b x y Ea Eb Ox Oy),
        (by_rating_before b c y z Eb Ec Oy Oz),
        (by_rating_before a c x z Ea Ec Ox Oz).
      apply num_le_trans.
    + intros a b Ha Hb After.
      destruct (T a Ha) as (x & Ea & Ox), (T b Hb) as (y & Eb & Oy).
      assert (B : before by_rating b a).
      { apply (by_rating_before b a y x Eb Ea Oy Ox).
        destruct (num_le_total x y Ox Oy) as [L|L]; [|exact L].
        apply (by_rating_before a b x y Ea Eb Ox Oy) in L. unfold before in L. lia. }
      unfold before in B. destruct (by_rating_sign b a); lia.
Qed.

End Comparators.

Lemma slice_last_two {A : Type} (l : list A) :
  slice (-2) None l = skipn (length l - 2) l.
Proof.
  unfold slice, slice_index. simpl.
  assert (E : Z.to_nat (Z.max (Z.of_nat (length l) + -2) 0) = (length l - 2)%nat)
    by lia.
  rewrite E. apply firstn_all2. rewrite length_skipn. lia.
Qed.

Lemma slice_first_two {A : Type} (l : list A) :
  slice 0 (Some 2%Z) l = firstn 2 l.
Proof.
  unfold slice, slice_index. simpl.
  assert (E0 : Z.to_nat (Z.min 0 (Z.of_nat (length l))) = 0%nat) by lia.
  rewrite E0, Nat.sub_0_r, skipn_O.
  destruct (Nat.le_gt_cases 2 (length l)) as [Long|Short].
  - assert (E : Z.to_nat (Z.min 2 (Z.of_nat (length l))) = 2%nat) by lia.
    now rewrite E.
  - assert (E : Z.to_nat (Z.min 2 (Z.of_nat (length l))) = length l) by lia.
    rewrite E, firstn_all. symmetry. apply firstn_all2. lia.
Qed.

(** ** The counter and the ids *)

Lemma counted_cons (start len : nat) :
  counted start (S len) = Some (VNum (num_of_nat start)) :: counted (S start) len.
Proof. reflexivity. Qed.

Lemma counted_app (start len1 len2 : nat) :
  counted start (len1 + len2) = counted start len1 ++ counted (start + len1) len2.
Proof. unfold counted. rewrite List.seq_app. apply List.map_app. Qed.

Lemma counted_NoDup (start len : nat) : NoDup (counted start len).
Proof.
  unfold counted. apply (NoDup_fmap_2_strong _ (seq start len)).
  - intros i j _ _ E. apply num_of_nat_inj. congruence.
  - apply NoDup_ListNoDup, seq_NoDup.
Qed.

Lemma counted_last (start len : nat) :
  last (counted start (S len)) = Some (Some (VNum (num_of_nat (start + len)))).
Proof.
  replace (S len) with (len + 1) by lia.
  rewrite counted_app. simpl. apply last_snoc.
Qed.

Lemma filter_sublist {A : Type} (q : A → bool) (l : list A) :
  List.filter q l `sublist_of` l.
Proof.
  induction l as [|x rest IH]; simpl; [constructor|].
  destruct (q x); now constructor.
Qed.

Lemma ids_alter_title (title : string) (i : nat) (l : list object) :
  ids (alter (λ movie : object, <["title" := VStr title]> movie) i l) = ids l.
Proof.
  revert i. induction l as [|movie rest IH]; intros [|i]; simpl; try reflexivity.
  - now rewrite title_keeps_id.
  - f_equal. apply IH.
Qed.

Section Counter.
Context `{Host}.

Lemma stamp_all_ids random (count : nat) (entries : list object) :
  Forall without_id entries →
  ids (stamp_all random count entries).1 = counted count (length entries).
Proof.
  intros W. revert count. induction W as [|movie rest Wm _ IH]; intros count.
  - reflexivity.
  - simpl. specialize (IH (S count)).
    destruct (stamp_all random (S count) rest) as [rest' count'].
    simpl in *. rewrite counted_cons, IH. f_equal.
    now apply stamp_id_fresh.
Qed.

Lemma constructor_ids random (entries : list object) :
  Forall without_id entries →
  ids (movies (constructor random entries)) = counted 0 (length entries).
Proof. intros W. rewrite constructor_movies. now apply stamp_all_ids. Qed.

Lemma add_all_ids (added : list (Qc * object)) (this : MovieAPI) :
  Forall (λ a : Qc * object, without_id a.2) added →
  ids (movies (add_all added this))
  = ids (movies this) ++ counted (idCount this) (length added) ∧
  idCount (add_all added this) = idCount this + length added.
Proof.
  intros W. revert this. induction W as [|[u movie] rest Wm _ IH]; intros this.
  - simpl. rewrite app_nil_r. split; [reflexivity | lia].
  - unfold add_all in *. simpl. destruct (IH (addMovie u movie this)) as [I C].
    rewrite I, C. simpl. split; [|lia].
    rewrite ids_app, counted_cons, <- app_assoc. simpl.
    now rewrite (stamp_id_fresh _ _ movie Wm).
Qed.

Lemma created_by_add (u : Qc) (movie : object) (this : MovieAPI) :
  created_by (AddMovie u movie) this
  = [stamp (idCount this) (generateRating u) movie].
Proof. unfold created_by. simpl. apply drop_app_length. Qed.

Lemma created_by_other `{!SortLaws H} (c : call) (this : MovieAPI) :
  is_add c = false → created_by c this = [].
Proof.
  intros N. unfold created_by. apply skipn_all2.
  destruct c; simpl; try lia; try discriminate.
  - unfold deleteMovieById. destruct (List.find _ _); simpl; [|lia].
    apply sublist_length, filter_sublist.
  - rewrite (Permutation_length (array_sort_perm _ _ _)). lia.
  - rewrite (Permutation_length (array_sort_perm _ _ _)). lia.
  - rewrite (Permutation_length (array_sort_perm _ _ _)). lia.
  - rewrite (Permutation_length (array_sort_perm _ _ _)). lia.
  - unfold findMovieById. destruct (List.find _ _); simpl; lia.
  - unfold editMovieTitleById. destruct (findIndex _ _); simpl; [|lia].
    rewrite length_alter. lia.
Qed.

Lemma step_idCount `{!SortLaws H} (c : call) (this : MovieAPI) :
  idCount (step c this) = idCount this + length (created_by c this).
Proof.
  destruct (is_add c) eqn:Add.
  - destruct c; try discriminate. rewrite created_by_add. simpl. lia.
  - rewrite (created_by_other c this Add). simpl.
    destruct c; try discriminate; simpl; try lia.
    + unfold deleteMovieById. destruct (List.find _ _); simpl; lia.
    + unfold findMovieById. destruct (List.find _ _); simpl; lia.
    + unfold editMovieTitleById. destruct (findIndex _ _); simpl; lia.
Qed.

Lemma created_ids `{!SortLaws H} (calls : list call) (this : MovieAPI) :
  Forall (λ c, Forall without_id (supplied c)) calls →
  ids (created calls this) = counted (idCount this) (length (created calls this)) ∧
  idCount (run calls this) = idCount this + length (created calls this).
Proof.
  intros W. revert this. induction W as [|c rest Wc _ IH]; intros this.
  - simpl. split; [reflexivity | lia].
  - change (run (c :: rest) this) with (run rest (step c this)).
    cbn [created].
    destruct (IH (step c this)) as [I C].
    rewrite ids_app, length_app, I, C, counted_app, step_idCount.
    split; [|lia]. f_equal.
    destruct (is_add c) eqn:Add.
    + destruct c; try discriminate. rewrite created_by_add.
      simpl in Wc. apply Forall_cons in Wc as [Wm _].
      unfold ids. simpl. now rewrite (stamp_id_fresh _ _ movie Wm).
    + now rewrite (created_by_other c this Add).
Qed.

Lemma run_app (earlier later : list call) (this : MovieAPI) :
  run (earlier ++ later) this = run later (run earlier this).
Proof. unfold run. apply fold_left_app. Qed.

Lemma run_idCount_le `{!SortLaws H} (calls : list call) (this : MovieAPI) :
  (idCount this ≤ idCount (run calls this))%nat.
Proof.
  revert this. induction calls as [|c rest IH]; intros this; [reflexivity|].
  change (run (c :: rest) this) with (run rest (step c this)).
  specialize (IH (step c this)). rewrite step_idCount in IH. lia.
Qed.

Lemma constructor_well_numbered random (entries : list object) :
  Forall without_id entries → well_numbered (constructor random entries).
Proof.
  intros W. unfold well_numbered.
  rewrite (constructor_ids random entries W), constructor_idCount.
  split; [|apply counted_NoDup].
  unfold counted. apply Forall_forall. intros v Hv.
  apply list_elem_of_In, List.in_map_iff in Hv as (i & <- & Hi).
  apply List.in_seq in Hi. exists i. split; [reflexivity | lia].
Qed.

Lemma well_numbered_same (this this' : MovieAPI) :
  ids (movies this') ≡ₚ ids (movies this) → idCount this' = idCount this →
  well_numbered this → well_numbered this'.
Proof.
  unfold well_numbered. intros P C [B D]. rewrite P, C. now split.
Qed.

Lemma well_numbered_sublist (this this' : MovieAPI) :
  movies this' `sublist_of` movies this → idCount this' = idCount this →
  well_numbered this → well_numbered this'.
Proof.
  unfold well_numbered. intros S C [B D]. rewrite C.
  assert (S' : ids (movies this') `sublist_of` ids (movies this)).
  { unfold ids. now apply (fmap_sublist (λ movie : object, movie !! "id")). }
  split; [|now apply (sublist_NoDup _ _ D S')].
  rewrite Forall_forall in B |- *. intros v Hv.
  apply B. now apply (elem_of_sublist _ _ v Hv S').
Qed.

Lemma step_well_numbered `{!SortLaws H} (c : call) (this : MovieAPI) :
  Forall without_id (supplied c) →
  well_numbered this → well_numbered (step c this).
Proof.
  intros W N. destruct c; simpl; try exact N.
  - unfold deleteMovieById. destruct (List.find _ _); simpl; [|exact N].
    apply (well_numbered_sublist this); [apply filter_sublist | reflexivity | exact N].
  - apply (well_numbered_same this); [|reflexivity | exact N].
    unfold ids. simpl. apply Permutation_map, array_sort_perm.
  - apply (well_numbered_same this); [|reflexivity | exact N].
    unfold ids. simpl. apply Permutation_map, array_sort_perm.
  - apply (well_numbered_same this); [|reflexivity | exact N].
    unfold ids. simpl. apply Permutation_map, array_sort_perm.
  - apply (well_numbered_same this); [|reflexivity | exact N].
    unfold ids. simpl. apply Permutation_map, array_sort_perm.
  - simpl in W. apply Forall_cons in W as [Wm _].
    destruct N as [B D]. unfold well_numbered, addMovie. simpl.
    rewrite ids_app. simpl. rewrite (stamp_id_fresh _ _ movie Wm). split.
    + apply Forall_app. split.
      * eapply Forall_impl; [exact B|]. intros v (i & -> & Hi).
        exists i. split; [reflexivity | lia].
      * constructor; [|constructor]. exists (idCount this). split; [reflexivity | lia].
    + apply NoDup_app. repeat split; [exact D | | apply NoDup_singleton].
      intros v Hv Hn. apply list_elem_of_singleton in Hn. subst v.
      rewrite Forall_forall in B. destruct (B _ Hv) as (i & E & Hi).
      assert (E' : num_of_nat (idCount this) = num_of_nat i) by congruence.
      apply num_of_nat_inj in E'. lia.
  - unfold findMovieById. destruct (List.find _ _); exact N.
  - unfold editMovieTitleById. destruct (findIndex _ _); simpl; [|exact N].
    apply (well_numbered_same this); [|reflexivity | exact N].
    simpl. now rewrite ids_alter_title.
Qed.

Lemma run_well_numbered `{!SortLaws H} (calls : list call) (this : MovieAPI) :
  Forall (λ c, Forall without_id (supplied c)) calls →
  well_numbered this → well_numbered (run calls this).
Proof.
  intros W. revert this. induction W as [|c rest Wc _ IH]; intros this N.
  - exact N.
  - apply IH. now apply step_well_numbered.
Qed.

End Counter.

(** * The claims *)

(** C1 (as amended).  In [Initialize] and in [AddMovie] the properties of
    the caller's record are copied over the generated ones: the stored
    record's [id] is the caller's [id] when the record has one and the
    counter value otherwise, and its [rating] is the caller's [rating] when
    the record has one and the generated rating otherwise. *)
Theorem caller_id_and_rating_win (random : nat → Qc)
  (entries : list object) (i : nat) (entry : object)
  (u : Qc) (movie : object) (this : MovieAPI) :
  entries !! i = Some entry →
  (∃ stored : object,
      movies (constructor random entries) !! i = Some stored ∧
      stored !! "id" = Some (default (VNum (num_of_nat i)) (entry !! "id")) ∧
      stored !! "rating"
      = Some (default (VNum (generateRating (random i))) (entry !! "rating"))) ∧
  (∃ stored : object,
      last (movies (addMovie u movie this)) = Some stored ∧
      stored !! "id"
      = Some (default (VNum (num_of_nat (idCount this))) (movie !! "id")) ∧
      stored !! "rating"
      = Some (default (VNum (generateRating u)) (movie !! "rating"))).
Proof.
  intros E. split.
  - eexists. split; [apply (constructor_lookup random entries i entry E)|].
    split; [apply stamp_id | apply stamp_rating].
  - eexists. split; [simpl; apply last_snoc|].
    split; [apply stamp_id | apply stamp_rating].
Qed.

Lemma caller_id_and_rating_win_witness :
  let entry : object := {[ "title" := VStr "B" ]} in
  let movie : object := {[ "id" := VNum (num_of_nat 99) ]} in
  let this := constructor (λ _, Qc_of_Z 0) [entry] in
  [entry] !! 0 = Some entry ∧
  (∃ stored : object,
      movies this !! 0 = Some stored ∧
      stored !! "id" = Some (VNum (num_of_nat 0))) ∧
  (∃ stored : object,
      last (movies (addMovie (Qc_of_Z 0) movie this)) = Some stored ∧
      stored !! "id" = Some (VNum (num_of_nat 99))).
Proof.
  intros entry movie this. split; [reflexivity|].
  destruct (caller_id_and_rating_win (λ _, Qc_of_Z 0)
              [entry] 0 entry (Qc_of_Z 0) movie this eq_refl)
    as [(s1 & L1 & I1 & _) (s2 & L2 & I2 & _)].
  split; [exists s1 | exists s2]; split; assumption.
Defined.

(** C1 (as stated) fails: a record that comes with an [id] and a [rating]
    keeps them, in [Initialize] (counter at 0) and in [AddMovie] (counter at
    1), while the generated rating is 1. *)
Lemma generated_values_do_not_win :
  let movie : object :=
    {[ "id" := VNum (num_of_nat 99); "rating" := VNum (num_of_nat 3) ]} in
  let built := constructor (λ _, Qc_of_Z 0) [movie] in
  let added := addMovie (Qc_of_Z 0) movie built in
  generateRating (Qc_of_Z 0) = num_of_nat 1 ∧
  idCount built = 1 ∧
  (∃ stored : object,
      movies built !! 0 = Some stored ∧
      stored !! "id" = Some (VNum (num_of_nat 99)) ∧
      stored !! "id" ≠ Some (VNum (num_of_nat 0)) ∧
      stored !! "rating" = Some (VNum (num_of_nat 3)) ∧
      stored !! "rating" ≠ Some (VNum (generateRating (Qc_of_Z 0)))) ∧
  (∃ stored : object,
      last (movies added) = Some stored ∧
      stored !! "id" = Some (VNum (num_of_nat 99)) ∧
      stored !! "id" ≠ Some (VNum (num_of_nat (idCount built))) ∧
      stored !! "rating" = Some (VNum (num_of_nat 3)) ∧
      stored !! "rating" ≠ Some (VNum (generateRating (Qc_of_Z 0)))).
Proof.
  intros movie built added.
  assert (G : generateRating (Qc_of_Z 0) = num_of_nat 1).
  { apply (f_equal Fin). now apply Qc_is_canon. }
  assert (Differ : ∀ i j : nat, i ≠ j →
            Some (VNum (num_of_nat i)) ≠ Some (VNum (num_of_nat j))).
  { intros i j N E. apply N, num_of_nat_inj. congruence. }
  split; [exact G|]. split; [reflexivity|]. rewrite G. split.
  - exists (stamp 0 (num_of_nat 1) movie).
    assert (Id : stamp 0 (num_of_nat 1) movie !! "id"
                 = Some (VNum (num_of_nat 99))) by reflexivity.
    assert (Rating : stamp 0 (num_of_nat 1) movie !! "rating"
                     = Some (VNum (num_of_nat 3))) by reflexivity.
    split; [unfold built, constructor; simpl; now rewrite G|].
    rewrite Id, Rating. repeat split; apply Differ; discriminate.
  - exists (stamp 1 (num_of_nat 1) movie).
    assert (Id : stamp 1 (num_of_nat 1) movie !! "id"
                 = Some (VNum (num_of_nat 99))) by reflexivity.
    assert (Rating : stamp 1 (num_of_nat 1) movie !! "rating"
                     = Some (VNum (num_of_nat 3))) by reflexivity.
    split; [unfold added, addMovie; simpl; now rewrite G|].
    rewrite Id, Rating. repeat split; apply Differ; discriminate.
Qed.

(** C2 (as amended).  [fetchTopBot2] sorts the store by rating in place and
    returns the last two records of the sorted store followed by its first
    two: 4 elements as soon as the store has 2 records (with 2 or 3 records
    some record is returned twice), the one record twice for a store of one
    record, and nothing for an empty store.  When every rating is a number
    the sorted store is ascending, so the two returned first are rated at
    least as high, and the two returned last at most as high, as every
    other record. *)
Theorem fetchTopBot2_slices `{Host} {laws : SortLaws H} (this : MovieAPI) :
  movies (after (fetchTopBot2 this)) ≡ₚ movies this ∧
  result (fetchTopBot2 this)
  = skipn (length (movies this) - 2) (movies (after (fetchTopBot2 this)))
    ++ firstn 2 (movies (after (fetchTopBot2 this))) ∧
  length (result (fetchTopBot2 this)) = 2 * Nat.min 2 (length (movies this)) ∧
  idCount (after (fetchTopBot2 this)) = idCount this ∧
  (rated (movies this) →
   StronglySorted rating_le (movies (after (fetchTopBot2 this))) ∧
   (∀ other top : object,
      other ∈ firstn (length (movies this) - 2) (movies (after (fetchTopBot2 this))) →
      top ∈ skipn (length (movies this) - 2) (movies (after (fetchTopBot2 this))) →
      rating_le other top) ∧
   (∀ bottom other : object,
      bottom ∈ firstn 2 (movies (after (fetchTopBot2 this))) →
      other ∈ skipn 2 (movies (after (fetchTopBot2 this))) →
      rating_le bottom other)).
Proof.
  unfold fetchTopBot2. cbn [after result idCount movies].
  pose proof (array_sort_perm object by_rating (movies this)) as P.
  pose proof (Permutation_length P) as L.
  split; [exact P|].
  rewrite slice_last_two, slice_first_two, L.
  split; [reflexivity|]. split.
  { rewrite length_app, length_skipn, length_firstn, L. lia. }
  split; [reflexivity|].
  intros R. pose proof (by_rating_sorted (movies this) R) as S.
  split; [exact S|]. split.
  - intros other top Ho Ht.
    rewrite <- (firstn_skipn (length (movies this) - 2)) in S.
    exact (StronglySorted_app_1_elem_of _ _ _ _ _ S Ho Ht).
  - intros bottom other Hb Ho.
    rewrite <- (firstn_skipn 2) in S.
    exact (StronglySorted_app_1_elem_of _ _ _ _ _ S Hb Ho).
Qed.

Lemma fetchTopBot2_slices_witness :
  let this := constructor (λ n, Q2Qc (Z.of_nat n # 10))
                [ (∅ : object); ∅; ∅; ∅; ∅ ] in
  rated (movies this) ∧
  StronglySorted rating_le (movies (after (@fetchTopBot2 reference_host this))) ∧
  ids (result (@fetchTopBot2 reference_host this))
  = [Some (VNum (num_of_nat 3)); Some (VNum (num_of_nat 4));
     Some (VNum (num_of_nat 0)); Some (VNum (num_of_nat 1))].
Proof.
  intros this.
  assert (R : rated (movies this)).
  { repeat constructor; eexists; (split; [reflexivity | discriminate]). }
  split; [exact R|]. split; [|reflexivity].
  destruct (@fetchTopBot2_slices reference_host reference_sort_laws this)
    as (_ & _ & _ & _ & Sorted_when_rated).
  exact (proj1 (Sorted_when_rated R)).
Defined.

(** C2 (as stated) fails on a store of three records: four elements are
    returned, not fewer, the middle record twice. *)
Lemma fetchTopBot2_of_three :
  let this := constructor (λ n, Q2Qc (Z.of_nat n # 10))
                [ (∅ : object); ∅; ∅ ] in
  length (movies this) = 3 ∧
  length (result (@fetchTopBot2 reference_host this)) = 4 ∧
  ids (result (@fetchTopBot2 reference_host this))
  = [Some (VNum (num_of_nat 1)); Some (VNum (num_of_nat 2));
     Some (VNum (num_of_nat 0)); Some (VNum (num_of_nat 1))].
Proof. intros this. repeat split. Qed.

(** C3 (as amended).  When no record has the id, [deleteMovieById] logs
    that the id is invalid and leaves the instance as it is.  When a record
    has the id, and the ids of the store are numbers and pairwise distinct,
    it removes that one record: the store is one record shorter, the
    records before and after it keep their order, and nothing is logged. *)
Theorem deleteMovieById_removes_one `{Host} (id : number) (this : MovieAPI) :
  ((∀ movie : object,
       movie ∈ movies this → strict_eq_num (movie !! "id") id = false) →
   after (deleteMovieById id this) = this ∧
   console (deleteMovieById id this) = [LogText "Invalid movie id"]) ∧
  (numeric_ids (movies this) → NoDup (ids (movies this)) →
   (∃ movie : object,
       movie ∈ movies this ∧ strict_eq_num (movie !! "id") id = true) →
   ∃ (front : list object) (movie : object) (back : list object),
     movies this = front ++ movie :: back ∧
     movie !! "id" = Some (VNum id) ∧
     movies (after (deleteMovieById id this)) = front ++ back ∧
     S (length (movies (after (deleteMovieById id this))))
     = length (movies this) ∧
     idCount (after (deleteMovieById id this)) = idCount this ∧
     console (deleteMovieById id this) = []).
Proof.
  unfold deleteMovieById. split.
  - intros None_has.
    destruct (List.find _ (movies this)) as [m|] eqn:F; [|now split].
    apply List.find_some in F as [In Pm].
    apply list_elem_of_In in In. rewrite (None_has m In) in Pm. discriminate.
  - intros Num Dis (m0 & In0 & P0).
    set (has_id := λ movie : object, strict_eq_num (movie !! "id") id).
    destruct (find_is_Some has_id _ m0 In0 P0) as [m F]. rewrite F. simpl.
    destruct (find_split has_id _ _ F) as (front & back & E & Pm & Pfront).
    unfold has_id in Pm, Pfront.
    pose proof (strict_eq_num_id _ _ Pm) as Im.
    exists front, m, back. rewrite E in *.
    unfold numeric_ids in Num.
    apply Forall_app in Num as [Nfront Nrest].
    apply Forall_cons in Nrest as [Nm Nback].
    rewrite ids_app in Dis. simpl in Dis.
    apply NoDup_app in Dis as (_ & _ & Dis).
    apply NoDup_cons in Dis as [Fresh _].
    assert (Kfront : Forall (λ y : object,
                               negb (loose_eq_num (y !! "id") id) = true) front).
    { rewrite Forall_forall in Pfront, Nfront |- *. intros y Hy.
      rewrite (loose_eq_num_numeric y id (Nfront y Hy)).
      now rewrite (Pfront y Hy). }
    assert (Kback : Forall (λ y : object,
                              negb (loose_eq_num (y !! "id") id) = true) back).
    { rewrite Forall_forall in Nback |- *. intros y Hy.
      rewrite (loose_eq_num_numeric y id (Nback y Hy)).
      destruct (strict_eq_num (y !! "id") id) eqn:Py; [|reflexivity].
      exfalso. apply Fresh. apply strict_eq_num_id in Py.
      rewrite Im, <- Py. unfold ids. apply list_elem_of_In, List.in_map.
      now apply list_elem_of_In. }
    assert (Gone : negb (loose_eq_num (m !! "id") id) = false).
    { rewrite (loose_eq_num_numeric m id Nm).
      now rewrite Pm. }
    assert (R : List.filter (λ y : object, negb (loose_eq_num (y !! "id") id))
                  (front ++ m :: back) = front ++ back).
    { rewrite List.filter_app. simpl. rewrite Gone.
      now rewrite (filter_all _ front Kfront), (filter_all _ back Kback). }
    rewrite R. repeat split; try assumption.
    rewrite !length_app. simpl. lia.
Qed.

Lemma deleteMovieById_removes_one_witness :
  let this := constructor (λ _, Qc_of_Z 0)
                [ {[ "title" := VStr "B" ]}; {[ "title" := VStr "A" ]} ] in
  let gone := @deleteMovieById reference_host (num_of_nat 0) this in
  (∃ (front : list object) (movie : object) (back : list object),
      movies this = front ++ movie :: back ∧
      movie !! "id" = Some (VNum (num_of_nat 0)) ∧
      movies (after gone) = front ++ back ∧
      S (length (movies (after gone))) = length (movies this) ∧
      idCount (after gone) = idCount this ∧
      console gone = []) ∧
  after (@deleteMovieById reference_host (num_of_nat 0) (after gone)) = after gone ∧
  console (@deleteMovieById reference_host (num_of_nat 0) (after gone))
  = [LogText "Invalid movie id"].
Proof.
  intros this gone. split.
  - apply (proj2 (@deleteMovieById_removes_one reference_host (num_of_nat 0) this)).
    + repeat constructor; eexists; reflexivity.
    + vm_compute. repeat constructor; rewrite ?list_elem_of_In; simpl; intuition discriminate.
    + eexists. split; [left | reflexivity].
  - apply (proj1 (@deleteMovieById_removes_one reference_host (num_of_nat 0)
                    (after gone))).
    intros movie In. vm_compute in In.
    apply list_elem_of_In in In. destruct In as [<-|[]]. reflexivity.
Defined.

(** C3 (as stated) fails on a store in which two records have the id: both
    are removed.  Such a store is built from entries that carry an [id]. *)
Lemma deleteMovieById_removes_two :
  let entry : object := {[ "id" := VNum (num_of_nat 7) ]} in
  let this := constructor (λ _, Qc_of_Z 0) [entry; entry] in
  (∃ movie : object,
      movie ∈ movies this ∧ strict_eq_num (movie !! "id") (num_of_nat 7) = true) ∧
  length (movies this) = 2 ∧
  length (movies (after (@deleteMovieById reference_host (num_of_nat 7) this))) = 0.
Proof.
  intros entry this. split; [|split; reflexivity].
  eexists. split; [left | reflexivity].
Qed.

(** C4 (as amended).  When no record passed to [Initialize] or to
    [AddMovie] carries an [id] of its own, then after any sequence of calls
    the ids of the store are pairwise distinct; the ids of all records ever
    created (the records of the constructor and those each call appended),
    deleted ones included, are 0, 1, 2, ... up to the counter, each handed
    out once; and the record that [addMovie] appends next gets the counter
    value, an id that no record held by the store at any earlier moment had,
    whether that record was deleted since or not. *)
Theorem ids_are_never_reused `{Host} {laws : SortLaws H} (random : nat → Qc)
  (entries : list object) (calls : list call) :
  Forall without_id entries →
  Forall (λ c, Forall without_id (supplied c)) calls →
  NoDup (ids (movies (run calls (constructor random entries)))) ∧
  ids (ever_created random entries calls)
  = counted 0 (idCount (run calls (constructor random entries))) ∧
  NoDup (ids (ever_created random entries calls)) ∧
  (∀ (earlier later : list call) (u : Qc) (movie old : object),
      calls = earlier ++ later → without_id movie →
      old ∈ movies (run earlier (constructor random entries)) →
      ∃ new : object,
        last (movies (addMovie u movie (run calls (constructor random entries))))
        = Some new ∧
        new !! "id"
        = Some (VNum (num_of_nat
                        (idCount (run calls (constructor random entries))))) ∧
        new !! "id" ≠ old !! "id").
Proof.
  intros We Wc.
  pose proof (constructor_well_numbered random entries We) as N0.
  pose proof (run_well_numbered calls _ Wc N0) as [_ D].
  destruct (created_ids calls (constructor random entries) Wc) as [I C].
  assert (E : ids (ever_created random entries calls)
              = counted 0 (idCount (run calls (constructor random entries)))).
  { unfold ever_created.
    rewrite ids_app, I, C, (constructor_ids random entries We), constructor_idCount.
    now rewrite counted_app. }
  split; [exact D|]. split; [exact E|]. split; [rewrite E; apply counted_NoDup|].
  intros earlier later u movie old -> Wm Held.
  apply Forall_app in Wc as [Wearlier _].
  pose proof (run_well_numbered earlier _ Wearlier N0) as [Below _].
  rewrite Forall_forall in Below.
  destruct (Below (old !! "id")) as (i & Ei & Lt).
  { apply list_elem_of_In, List.in_map. now apply list_elem_of_In. }
  pose proof (run_idCount_le later (run earlier (constructor random entries))) as Le.
  rewrite <- run_app in Le.
  eexists. split; [simpl; apply last_snoc|].
  rewrite (stamp_id_fresh _ _ movie Wm). split; [reflexivity|].
  rewrite Ei. intros Same. injection Same as Same. lia.
Qed.

Lemma ids_are_never_reused_witness :
  let entries : list object := [ {[ "title" := VStr "B" ]}; {[ "title" := VStr "A" ]} ] in
  let calls := [ DeleteMovieById (num_of_nat 1);
                 AddMovie (Qc_of_Z 0) {[ "title" := VStr "New" ]};
                 FetchTopBot2 ] in
  let random := λ _ : nat, Qc_of_Z 0 in
  let deleted := stamp 1 (generateRating (Qc_of_Z 0)) {[ "title" := VStr "A" ]} in
  NoDup (ids (movies (@run reference_host calls
                        (constructor random entries)))) ∧
  ids (@ever_created reference_host random entries calls) = counted 0 3 ∧
  NoDup (ids (@ever_created reference_host random entries calls)) ∧
  (deleted ∉ movies (@run reference_host calls (constructor random entries))) ∧
  ∃ new : object,
    last (movies (addMovie (Qc_of_Z 0) ∅
                    (@run reference_host calls (constructor random entries))))
    = Some new ∧
    new !! "id" = Some (VNum (num_of_nat 3)) ∧
    new !! "id" ≠ deleted !! "id".
Proof.
  intros entries calls random deleted.
  assert (We : Forall without_id entries) by (repeat constructor).
  assert (Wc : Forall (λ c, Forall without_id (supplied c)) calls)
    by (repeat constructor).
  destruct (@ids_are_never_reused reference_host reference_sort_laws
              random entries calls We Wc) as (D & E & N & Fresh).
  split; [exact D|]. split; [exact E|]. split; [exact N|]. split.
  - intros In.
    assert (M : deleted !! "id"
                ∈ ids (movies (@run reference_host calls
                                 (constructor random entries)))).
    { exact (elem_of_ids _ _ In). }
    assert (Ids : ids (movies (@run reference_host calls
                                 (constructor random entries)))
                  = [Some (VNum (num_of_nat 2)); Some (VNum (num_of_nat 0))])
      by reflexivity.
    assert (Id : deleted !! "id" = Some (VNum (num_of_nat 1))) by reflexivity.
    rewrite Ids, Id in M. apply list_elem_of_In in M.
    destruct M as [M|[M|[]]]; injection M as M; lia.
  - apply (Fresh [] calls (Qc_of_Z 0) ∅ deleted eq_refl).
    + reflexivity.
    + apply list_elem_of_In. right. left. reflexivity.
Defined.

(** C4 (as stated) fails: a record added with an [id] of its own keeps it,
    and the store holds two records with the same id. *)
Lemma ids_can_repeat :
  let this := @run reference_host
                [AddMovie (Qc_of_Z 0) {[ "id" := VNum (num_of_nat 0) ]}]
                (constructor (λ _, Qc_of_Z 0) [ (∅ : object) ]) in
  ids (movies this) = [Some (VNum (num_of_nat 0)); Some (VNum (num_of_nat 0))] ∧
  ¬ NoDup (ids (movies this)).
Proof.
  intros this. assert (E : ids (movies this)
    = [Some (VNum (num_of_nat 0)); Some (VNum (num_of_nat 0))]) by reflexivity.
  split; [exact E|]. rewrite E. intros D.
  apply NoDup_cons in D as [D _]. apply D. now left.
Qed.

(** C5 (as amended).  When no record passed to [Initialize] or to
    [AddMovie] carries an [id] of its own: after [Initialize] with n records
    the ids are 0, ..., n-1 in input order; after k calls of [AddMovie] the
    store has n+k records with ids 0, ..., n+k-1 in order, so the record
    created by the k-th call, the last one, has id n+k-1. *)
Theorem ids_count_up (random : nat → Qc) (entries : list object)
  (added : list (Qc * object)) :
  Forall without_id entries →
  Forall (λ a : Qc * object, without_id a.2) added →
  ids (movies (constructor random entries)) = counted 0 (length entries) ∧
  length (movies (add_all added (constructor random entries)))
  = length entries + length added ∧
  ids (movies (add_all added (constructor random entries)))
  = counted 0 (length entries + length added) ∧
  (added ≠ [] →
   ∃ stored : object,
     last (movies (add_all added (constructor random entries))) = Some stored ∧
     stored !! "id"
     = Some (VNum (num_of_nat (length entries + length added - 1)))).
Proof.
  intros We Wa.
  pose proof (constructor_ids random entries We) as I0.
  destruct (add_all_ids added (constructor random entries) Wa) as [I _].
  rewrite I0, constructor_idCount, <- counted_app in I.
  split; [exact I0|].
  assert (L : length (movies (add_all added (constructor random entries)))
              = length entries + length added).
  { apply (f_equal length) in I. unfold ids, counted in I.
    now rewrite !length_map, length_seq in I. }
  split; [exact L|]. split; [exact I|].
  intros Ne.
  destruct (last (movies (add_all added (constructor random entries))))
    as [stored|] eqn:Last.
  - exists stored. split; [reflexivity|].
    assert (E : last (ids (movies (add_all added (constructor random entries))))
                = Some (stored !! "id")).
    { unfold ids. change List.map with (@fmap list _). now rewrite fmap_last, Last. }
    rewrite I in E. destruct added as [|a rest]; [congruence|]. simpl in E.
    replace (length entries + S (length rest)) with (S (length entries + length rest)) in E by lia.
    rewrite counted_last in E. simpl. injection E as <-.
    repeat f_equal. lia.
  - apply last_None in Last. rewrite Last in L. simpl in L.
    destruct added; [congruence | simpl in L; lia].
Qed.

Lemma ids_count_up_witness :
  let entries : list object := [ {[ "title" := VStr "B" ]}; {[ "title" := VStr "A" ]} ] in
  let added : list (Qc * object) := [ (Qc_of_Z 0, {[ "title" := VStr "New" ]}) ] in
  let built := constructor (λ _, Qc_of_Z 0) entries in
  ids (movies built) = counted 0 2 ∧
  length (movies (add_all added built)) = 3 ∧
  ids (movies (add_all added built)) = counted 0 3 ∧
  (added ≠ [] →
   ∃ stored : object,
     last (movies (add_all added built)) = Some stored ∧
     stored !! "id" = Some (VNum (num_of_nat 2))).
Proof.
  intros entries added built.
  apply (ids_count_up (λ _, Qc_of_Z 0) entries added).
  - repeat constructor.
  - repeat constructor.
Defined.

(** C5 (as stated) fails: records that carry an [id] of their own keep it,
    in [Initialize] and in [AddMovie]. *)
Lemma ids_do_not_count_up :
  let entry : object := {[ "id" := VNum (num_of_nat 7) ]} in
  let built := constructor (λ _, Qc_of_Z 0) [entry] in
  let added := add_all [ (Qc_of_Z 0, entry) ] built in
  ids (movies built) = [Some (VNum (num_of_nat 7))] ∧
  ids (movies built) ≠ counted 0 1 ∧
  length (movies added) = 2 ∧
  (∃ stored : object,
      last (movies added) = Some stored ∧
      stored !! "id" = Some (VNum (num_of_nat 7)) ∧
      stored !! "id" ≠ Some (VNum (num_of_nat (1 + 1 - 1)))).
Proof.
  intros entry built added.
  assert (Differ : ∀ i j : nat, i ≠ j →
            Some (VNum (num_of_nat i)) ≠ Some (VNum (num_of_nat j))).
  { intros i j N E. apply N, num_of_nat_inj. congruence. }
  split; [reflexivity|]. split; [|split; [reflexivity|]].
  - change (ids (movies built)) with [Some (VNum (num_of_nat 7))].
    change (counted 0 1) with [Some (VNum (num_of_nat 0))].
    intros E. apply (Differ 7 0); [discriminate | congruence].
  - exists (stamp 1 (generateRating (Qc_of_Z 0)) entry).
    assert (Kept : stamp 1 (generateRating (Qc_of_Z 0)) entry !! "id"
                   = Some (VNum (num_of_nat 7))) by reflexivity.
    split; [reflexivity|]. split; [exact Kept|].
    rewrite Kept. apply Differ. discriminate.
Qed.

(** C6.  Whatever [Math.random()] returns, a value [u] with [0 <= u < 1],
    [generateRating] returns the number written [k/10] for an integer [k]
    between 10 and 50, so a value with one decimal digit, and it lies
    between 1 and 5. *)
Theorem generateRating_one_decimal (u : Qc) :
  (Qc_of_Z 0 ≤ u)%Qc → (u < Qc_of_Z 1)%Qc →
  ∃ k : Z,
    (10 ≤ k ≤ 50)%Z ∧
    generateRating u = Fin (round_double (Qc_of_Z k / Qc_of_Z 10)%Qc) ∧
    (Qc_of_Z 1 ≤ round_double (Qc_of_Z k / Qc_of_Z 10))%Qc ∧
    (round_double (Qc_of_Z k / Qc_of_Z 10) ≤ Qc_of_Z 5)%Qc.
Proof.
  intros L U. unfold generateRating.
  set (scaled := round_double (u * Qc_of_Z (5 - 1))%Qc).
  set (shifted := round_double (scaled + Qc_of_Z 1)%Qc).
  set (tenfold := round_double (shifted * Qc_of_Z 10)%Qc).
  assert (B1 : (Qc_of_Z 0 ≤ scaled)%Qc ∧ (scaled ≤ Qc_of_Z 4)%Qc).
  { apply round_double_between; try (simpl; lia).
    - rewrite Z2Qc_inj_0 in *. apply Qcmult_nonneg_nonneg; [exact L|].
      rewrite <- Z2Qc_inj_0. now apply (proj1 (Z2Qc_inj_le 0 (5 - 1))).
    - change (Qc_of_Z 4) with (Qc_of_Z (1 * (5 - 1))). rewrite Z2Qc_inj_mul.
      apply Qcmult_le_mono_nonneg_r; [|now apply Qclt_le_weak].
      rewrite <- Z2Qc_inj_0. now apply (proj1 (Z2Qc_inj_le 0 (5 - 1))). }
  assert (B2 : (Qc_of_Z 1 ≤ shifted)%Qc ∧ (shifted ≤ Qc_of_Z 5)%Qc).
  { destruct B1 as [B1 B1'].
    apply round_double_between; try (simpl; lia).
    - change (Qc_of_Z 1) with (Qc_of_Z (0 + 1)) at 1. rewrite Z2Qc_inj_add.
      now apply (proj1 (Qcplus_le_mono_r _ _ _)).
    - change (Qc_of_Z 5) with (Qc_of_Z (4 + 1)). rewrite Z2Qc_inj_add.
      now apply (proj1 (Qcplus_le_mono_r _ _ _)). }
  assert (P10 : (Qc_of_Z 0 ≤ Qc_of_Z 10)%Qc).
  { now apply (proj1 (Z2Qc_inj_le 0 10)). }
  assert (B3 : (Qc_of_Z 10 ≤ tenfold)%Qc ∧ (tenfold ≤ Qc_of_Z 50)%Qc).
  { destruct B2 as [B2 B2'].
    apply round_double_between; try (simpl; lia).
    - change (Qc_of_Z 10) with (Qc_of_Z (1 * 10)) at 1. rewrite Z2Qc_inj_mul.
      apply Qcmult_le_mono_nonneg_r; [|exact B2].
      now rewrite <- Z2Qc_inj_0.
    - change (Qc_of_Z 50) with (Qc_of_Z (5 * 10)). rewrite Z2Qc_inj_mul.
      apply Qcmult_le_mono_nonneg_r; [|exact B2'].
      now rewrite <- Z2Qc_inj_0. }
  destruct B3 as [B3 B3'].
  pose proof (Math_round_between 10 50 tenfold B3 B3') as K.
  exists (Math_round tenfold). split; [exact K|]. split; [reflexivity|].
  apply round_double_between; try (simpl; lia).
  - rewrite <- (Qc_of_Z_div_cancel 1 10) by lia.
    apply Qc_div_le_compat; [lia|].
    apply (proj1 (Z2Qc_inj_le _ _)). simpl. lia.
  - rewrite <- (Qc_of_Z_div_cancel 5 10) by lia.
    apply Qc_div_le_compat; [lia|].
    apply (proj1 (Z2Qc_inj_le _ _)). simpl. lia.
Qed.

Lemma generateRating_one_decimal_witness :
  (Qc_of_Z 0 ≤ Q2Qc (37 # 100))%Qc ∧ (Q2Qc (37 # 100) < Qc_of_Z 1)%Qc ∧
  ∃ k : Z,
    (10 ≤ k ≤ 50)%Z ∧
    generateRating (Q2Qc (37 # 100))
    = Fin (round_double (Qc_of_Z k / Qc_of_Z 10)%Qc) ∧
    (Qc_of_Z 1 ≤ round_double (Qc_of_Z k / Qc_of_Z 10))%Qc ∧
    (round_double (Qc_of_Z k / Qc_of_Z 10) ≤ Qc_of_Z 5)%Qc.
Proof.
  assert (L : (Qc_of_Z 0 ≤ Q2Qc (37 # 100))%Qc) by (now vm_compute).
  assert (U : (Q2Qc (37 # 100) < Qc_of_Z 1)%Qc) by (now vm_compute).
  split; [exact L|]. split; [exact U|].
  exact (generateRating_one_decimal (Q2Qc (37 # 100)) L U).
Defined.

(** C7.  The method is documented as "fetch all movies, sorted by name",
    and the [Movie] typedef allows a record without a title; on the store
    built from the four records titled "C", none, "B", "D" the method
    returns them in the order "B", "D", none, "C": the record titled "D"
    comes before the one titled "C" although "D" > "C".  With [undefined]
    (or [null]) on either side [>] is false, so the comparator answers -1
    for the untitled record whichever way it is asked, and the sort cannot
    bring the titles around it in order.  A [null] title gives the same
    order. *)
Theorem fetchMoviesSortedByName_out_of_order :
  let store (untitled : object) :=
    constructor (λ _, Qc_of_Z 0)
      [ {[ "title" := VStr "C" ]}; untitled;
        {[ "title" := VStr "B" ]}; {[ "title" := VStr "D" ]} ] in
  let sorted := result (@fetchMoviesSortedByName reference_host (store ∅)) in
  List.map (λ movie : object, movie !! "title") sorted
  = [Some (VStr "B"); Some (VStr "D"); None; Some (VStr "C")] ∧
  ids sorted
  = [Some (VNum (num_of_nat 2)); Some (VNum (num_of_nat 3));
     Some (VNum (num_of_nat 1)); Some (VNum (num_of_nat 0))] ∧
  (∃ earlier later : object,
      sorted !! 1 = Some earlier ∧ sorted !! 3 = Some later ∧
      earlier !! "title" = Some (VStr "D") ∧
      later !! "title" = Some (VStr "C") ∧
      string_gt "D" "C" = true ∧
      ¬ title_le earlier later) ∧
  List.map (λ movie : object, movie !! "title")
    (result (@fetchMoviesSortedByName reference_host
               (store {[ "title" := VNull ]})))
  = [Some (VStr "B"); Some (VStr "D"); Some VNull; Some (VStr "C")].
Proof.
  intros store sorted. split; [reflexivity|]. split; [reflexivity|].
  split; [|reflexivity].
  eexists. eexists. repeat split.
  intros (s & t & Es & Et & L).
  vm_compute in Es, Et. injection Es as <-. injection Et as <-.
  discriminate.
Qed.

(** C8.  [fetchMoviesNoSubThumb] returns as many records as
    [fetchAllMovies], with the same ids in the same order; each has no
    [subtitle] and no [thumb], and every other property, whatever its name,
    is the one of the corresponding record of [fetchAllMovies]. *)
Theorem fetchMoviesNoSubThumb_projects (this : MovieAPI) :
  length (fetchMoviesNoSubThumb this) = length (fetchAllMovies this) ∧
  ids (fetchMoviesNoSubThumb this) = ids (fetchAllMovies this) ∧
  Forall2
    (λ projected movie : object,
       ∀ k : string,
         projected !! k
         = if decide (k = "subtitle" ∨ k = "thumb") then None else movie !! k)
    (fetchMoviesNoSubThumb this) (fetchAllMovies this).
Proof.
  unfold fetchMoviesNoSubThumb, fetchAllMovies, ids.
  split; [apply length_map|]. split.
  - rewrite List.map_map. apply List.map_ext. intros movie.
    now rewrite !lookup_delete_ne by discriminate.
  - induction (movies this) as [|movie rest IH]; simpl; constructor; [|exact IH].
    intros k. destruct (decide (k = "subtitle" ∨ k = "thumb")) as [[->| ->]|N].
    + rewrite lookup_delete_ne by discriminate. apply lookup_delete_eq.
    + apply lookup_delete_eq.
    + rewrite !lookup_delete_ne; [reflexivity | |]; intros <-; tauto.
Qed.

(** C9 (as amended).  In a store whose ids are numbers and which holds a
    record with the id, [editMovieTitleById] then [findMovieById] returns
    the record
    that [findMovieById] returned before the edit with its [title] set to
    the new title and every other property as it was; the records at all
    other positions, so all records with another id, are as they were. *)
Theorem editMovieTitleById_then_find `{Host} (id : number) (title : string)
  (this : MovieAPI) :
  numeric_ids (movies this) →
  (∃ movie : object,
      movie ∈ movies this ∧ strict_eq_num (movie !! "id") id = true) →
  ∃ (i : nat) (old new : object),
    result (findMovieById id this) = Some old ∧
    movies this !! i = Some old ∧
    result (findMovieById id (after (editMovieTitleById id title this)))
    = Some new ∧
    movies (after (editMovieTitleById id title this)) !! i = Some new ∧
    new !! "title" = Some (VStr title) ∧
    (∀ k : string, k ≠ "title" → new !! k = old !! k) ∧
    (∀ j : nat, j ≠ i →
       movies (after (editMovieTitleById id title this)) !! j
       = movies this !! j) ∧
    (∀ (j : nat) (other : object),
       movies this !! j = Some other →
       strict_eq_num (other !! "id") id = false →
       movies (after (editMovieTitleById id title this)) !! j = Some other) ∧
    length (movies (after (editMovieTitleById id title this)))
    = length (movies this) ∧
    idCount (after (editMovieTitleById id title this)) = idCount this.
Proof.
  intros Num (m0 & In0 & P0).
  set (has_id := λ movie : object, strict_eq_num (movie !! "id") id).
  set (like_id := λ movie : object, loose_eq_num (movie !! "id") id).
  unfold editMovieTitleById, findMovieById. fold has_id like_id.
  destruct (findIndex_is_Some has_id _ m0 In0 P0) as [i F]. rewrite F.
  destruct (findIndex_split has_id _ _ F) as (front & old & back & E & L & Pold & Pfront).
  unfold has_id in Pold, Pfront. rewrite E in *. simpl.
  unfold numeric_ids in Num.
  apply Forall_app in Num as [Nfront Nrest].
  apply Forall_cons in Nrest as [Nold Nback].
  assert (Lfront : Forall (λ y : object, like_id y = false) front).
  { rewrite Forall_forall in Pfront, Nfront |- *. intros y Hy. unfold like_id.
    rewrite (loose_eq_num_numeric y id (Nfront y Hy)). now apply Pfront. }
  assert (Lold : like_id old = true).
  { unfold like_id. now rewrite (loose_eq_num_numeric old id Nold). }
  set (new := <["title" := VStr title]> old).
  assert (Lnew : like_id new = true).
  { unfold like_id, new. now rewrite title_keeps_id. }
  assert (A : alter (λ movie : object, <["title" := VStr title]> movie) i
                (front ++ old :: back) = front ++ new :: back).
  { subst i. now rewrite (alter_app_r_alt _ front (old :: back)), Nat.sub_diag by lia. }
  rewrite A.
  rewrite (find_first like_id front back old Lfront Lold).
  rewrite (find_first like_id front back new Lfront Lnew). simpl.
  exists i, old, new. subst i.
  repeat split.
  - now rewrite list_lookup_middle.
  - now rewrite list_lookup_middle.
  - apply lookup_insert_eq.
  - intros k Nk. unfold new. now rewrite lookup_insert_ne by congruence.
  - intros j Nj. destruct (decide (j < length front)) as [Lt|Ge].
    + now rewrite !lookup_app_l by exact Lt.
    + rewrite !lookup_app_r by lia.
      destruct (j - length front) as [|d] eqn:D; [lia | reflexivity].
  - intros j other Look Pother.
    destruct (decide (j = length front)) as [->|Nj].
    + rewrite list_lookup_middle in Look by reflexivity.
      injection Look as <-. congruence.
    + rewrite <- Look. destruct (decide (j < length front)) as [Lt|Ge].
      * now rewrite !lookup_app_l by exact Lt.
      * rewrite !lookup_app_r by lia.
        destruct (j - length front) as [|d] eqn:D; [lia | reflexivity].
  - rewrite !length_app. reflexivity.
Qed.

Lemma editMovieTitleById_then_find_witness :
  let this := constructor (λ _, Qc_of_Z 0)
                [ {[ "title" := VStr "B" ]}; {[ "title" := VStr "A" ]} ] in
  let edited := after (editMovieTitleById (num_of_nat 1) "X" this) in
  ∃ (i : nat) (old new : object),
    result (@findMovieById reference_host (num_of_nat 1) this) = Some old ∧
    movies this !! i = Some old ∧
    result (@findMovieById reference_host (num_of_nat 1) edited) = Some new ∧
    movies edited !! i = Some new ∧
    new !! "title" = Some (VStr "X") ∧
    (∀ k : string, k ≠ "title" → new !! k = old !! k) ∧
    (∀ j : nat, j ≠ i → movies edited !! j = movies this !! j) ∧
    (∀ (j : nat) (other : object),
       movies this !! j = Some other →
       strict_eq_num (other !! "id") (num_of_nat 1) = false →
       movies edited !! j = Some other) ∧
    length (movies edited) = length (movies this) ∧
    idCount edited = idCount this.
Proof.
  intros this edited.
  apply (@editMovieTitleById_then_find reference_host (num_of_nat 1) "X" this).
  - repeat constructor; eexists; reflexivity.
  - eexists. split; [right; left | reflexivity].
Defined.

(** C9 (as stated) fails on a store that holds a record with the id and,
    before it, a record whose own [id] is a string with the same numeric
    value: [editMovieTitleById] looks for the id with [===] and sets the
    title of the record with the number 1, [findMovieById] looks for it
    with [==] and returns the record with the string "1", whose title is
    as it was. *)
Lemma editMovieTitleById_then_find_other :
  let this := constructor (λ _, Qc_of_Z 0)
                [ {[ "id" := VStr "1"; "title" := VStr "s" ]};
                  {[ "title" := VStr "n" ]} ] in
  let edited := after (editMovieTitleById (num_of_nat 1) "X" this) in
  (∃ movie : object,
      movie ∈ movies this ∧ movie !! "id" = Some (VNum (num_of_nat 1))) ∧
  console (editMovieTitleById (num_of_nat 1) "X" this) = [] ∧
  List.map (λ movie : object, movie !! "title") (movies edited)
  = [Some (VStr "s"); Some (VStr "X")] ∧
  ∃ found : object,
    result (@findMovieById reference_host (num_of_nat 1) edited) = Some found ∧
    found !! "id" = Some (VStr "1") ∧
    found !! "title" = Some (VStr "s") ∧
    found !! "title" ≠ Some (VStr "X").
Proof.
  intros this edited. split.
  { eexists. split; [right; left | reflexivity]. }
  split; [reflexivity|]. split; [reflexivity|].
  eexists. split; [reflexivity|]. split; [reflexivity|].
  split; [reflexivity | discriminate].
Qed.

(** C10.  Called without a genre, [fetchMoviesByGenre] returns the records
    that have no [genre], in store order: an absent property is strictly
    equal to an absent argument. *)
Theorem fetchMoviesByGenre_undefined (this : MovieAPI) :
  fetchMoviesByGenre None this
  = List.filter (λ movie : object,
                   match movie !! "genre" with None => true | Some _ => false end)
                (movies this) ∧
  ∀ movie : object,
    movie ∈ fetchMoviesByGenre None this
    ↔ movie ∈ movies this ∧ movie !! "genre" = None.
Proof.
  assert (E : ∀ movie : object,
             strict_eq_str (movie !! "genre") None
             = match movie !! "genre" with None => true | Some _ => false end).
  { intros movie. unfold strict_eq_str.
    now destruct (movie !! "genre") as [[]|]. }
  split.
  - unfold fetchMoviesByGenre. apply List.filter_ext. exact E.
  - intros movie. unfold fetchMoviesByGenre.
    rewrite !list_elem_of_In, List.filter_In, E.
    destruct (movie !! "genre"); intuition congruence.
Qed.

(** The result need not be empty: a store of two records, one without a
    genre. *)
Example fetchMoviesByGenre_undefined_finds :
  let this := constructor (λ _, Qc_of_Z 0)
                [ {[ "genre" := VStr "Drama" ]}; {[ "title" := VStr "A" ]} ] in
  ids (fetchMoviesByGenre None this) = [Some (VNum (num_of_nat 1))].
Proof. reflexivity. Qed.

(** * Further properties of the methods *)

(** ** Matching an id *)

Lemma strict_loose `{Host} (x : option value) (n : number) :
  strict_eq_num x n = true → loose_eq_num x n = true.
Proof. destruct x as [[| | |]|]; simpl; congruence. Qed.

Lemma find_none_all {A : Type} (p : A → bool) (l : list A) :
  Forall (λ y, p y = false) l → List.find p l = None.
Proof.
  induction 1 as [|y l Py _ IH]; simpl; [reflexivity|]. now rewrite Py.
Qed.

Lemma find_none_inv {A : Type} (p : A → bool) (l : list A) :
  List.find p l = None → Forall (λ y, p y = false) l.
Proof.
  intros F. apply Forall_forall. intros y Hy.
  apply (List.find_none p l F). now apply list_elem_of_In.
Qed.

Lemma filter_filter_out {A : Type} (q : A → bool) (l : list A) :
  Forall (λ y, q y = true) (List.filter q l).
Proof.
  apply Forall_forall. intros y Hy.
  apply list_elem_of_In, List.filter_In in Hy. tauto.
Qed.

Lemma numeric_ids_sublist (l k : list object) :
  l `sublist_of` k → numeric_ids k → numeric_ids l.
Proof.
  unfold numeric_ids. intros S N. rewrite Forall_forall in N |- *.
  intros movie Hm. apply N. exact (elem_of_sublist _ _ _ Hm S).
Qed.

Section Deleting.
Context `{Host}.

(** In a store whose ids are numbers, the record kept and the record
    dropped are told apart by [===] as well as by [!=]. *)
Lemma filter_loose_strict (id : number) (l : list object) :
  numeric_ids l →
  List.filter (λ movie : object, negb (loose_eq_num (movie !! "id") id)) l
  = List.filter (λ movie : object, negb (strict_eq_num (movie !! "id") id)) l.
Proof.
  induction 1 as [|movie rest Nm _ IH]; simpl; [reflexivity|].
  now rewrite (loose_eq_num_numeric movie id Nm), IH.
Qed.

Lemma deleteMovieById_movies (id : number) (this : MovieAPI) :
  numeric_ids (movies this) →
  movies (after (deleteMovieById id this))
  = List.filter (λ movie : object, negb (strict_eq_num (movie !! "id") id))
      (movies this).
Proof.
  intros N. unfold deleteMovieById.
  destruct (List.find _ (movies this)) eqn:F; simpl.
  - now apply filter_loose_strict.
  - symmetry. apply filter_all. apply find_none_inv in F.
    eapply Forall_impl; [exact F|]. simpl. now intros movie ->.
Qed.

Lemma deleteMovieById_sublist (id : number) (this : MovieAPI) :
  movies (after (deleteMovieById id this)) `sublist_of` movies this.
Proof.
  unfold deleteMovieById. destruct (List.find _ (movies this)); simpl.
  - apply filter_sublist.
  - reflexivity.
Qed.

End Deleting.

(** X1.  Called with a genre, [fetchMoviesByGenre] returns the records
    whose [genre] is that very string, and no record without a genre or
    with a [genre] that is not a string; they come in store order. *)
Theorem fetchMoviesByGenre_string (genre : string) (this : MovieAPI) :
  fetchMoviesByGenre (Some genre) this `sublist_of` movies this ∧
  ∀ movie : object,
    movie ∈ fetchMoviesByGenre (Some genre) this
    ↔ movie ∈ movies this ∧ movie !! "genre" = Some (VStr genre).
Proof.
  unfold fetchMoviesByGenre. split; [apply filter_sublist|].
  intros movie. rewrite !list_elem_of_In, List.filter_In.
  unfold strict_eq_str.
  destruct (movie !! "genre") as [[|n|s|l]|]; try (intuition congruence).
  destruct (String.eqb_spec s genre) as [->|N]; intuition congruence.
Qed.

(** X2.  Deleting the same id a second time changes nothing and logs that
    the id is invalid, whatever the store holds. *)
Theorem deleteMovieById_twice `{Host} (id : number) (this : MovieAPI) :
  after (deleteMovieById id (after (deleteMovieById id this)))
  = after (deleteMovieById id this) ∧
  console (deleteMovieById id (after (deleteMovieById id this)))
  = [LogText "Invalid movie id"].
Proof.
  assert (Gone : List.find (λ movie : object, strict_eq_num (movie !! "id") id)
                   (movies (after (deleteMovieById id this))) = None).
  { unfold deleteMovieById at 1.
    destruct (List.find _ (movies this)) eqn:F; simpl; [|exact F].
    apply find_none_all.
    eapply Forall_impl; [apply filter_filter_out|]. simpl.
    intros movie Kept.
    destruct (strict_eq_num (movie !! "id") id) eqn:S; [|reflexivity].
    rewrite (strict_loose _ _ S) in Kept. discriminate. }
  set (first := after (deleteMovieById id this)) in *.
  unfold deleteMovieById. rewrite Gone. now split.
Qed.

(** X3.  In a store whose ids are numbers, [deleteMovieById] removes every
    record with the id, also when several have it, and keeps all others in
    their order; the counter stays, and nothing is logged exactly when a
    record had the id. *)
Theorem deleteMovieById_removes_all `{Host} (id : number) (this : MovieAPI) :
  numeric_ids (movies this) →
  movies (after (deleteMovieById id this)) `sublist_of` movies this ∧
  (∀ movie : object,
      movie ∈ movies (after (deleteMovieById id this))
      ↔ movie ∈ movies this ∧ strict_eq_num (movie !! "id") id = false) ∧
  idCount (after (deleteMovieById id this)) = idCount this ∧
  (console (deleteMovieById id this) = []
   ↔ ∃ movie : object,
       movie ∈ movies this ∧ strict_eq_num (movie !! "id") id = true).
Proof.
  intros N. split; [apply deleteMovieById_sublist|]. split; [|split].
  - intros movie. rewrite (deleteMovieById_movies id this N).
    rewrite !list_elem_of_In, List.filter_In, negb_true_iff. reflexivity.
  - unfold deleteMovieById. now destruct (List.find _ (movies this)).
  - unfold deleteMovieById.
    destruct (List.find _ (movies this)) as [m|] eqn:F; simpl.
    + apply List.find_some in F as [In P]. split; [|reflexivity].
      intros _. exists m. split; [now apply list_elem_of_In | exact P].
    + split; [discriminate|]. intros (m & In & P).
      apply list_elem_of_In in In.
      pose proof (List.find_none _ _ F m In) as P'. simpl in P'. congruence.
Qed.

Lemma deleteMovieById_removes_all_witness :
  let entry : object := {[ "id" := VNum (num_of_nat 7) ]} in
  let this := constructor (λ _, Qc_of_Z 0) [entry; ∅; entry] in
  numeric_ids (movies this) ∧
  ids (movies (after (@deleteMovieById reference_host (num_of_nat 7) this)))
  = [Some (VNum (num_of_nat 1))] ∧
  (∀ movie : object,
      movie ∈ movies (after (@deleteMovieById reference_host (num_of_nat 7) this))
      ↔ movie ∈ movies this ∧
        strict_eq_num (movie !! "id") (num_of_nat 7) = false).
Proof.
  intros entry this.
  assert (N : numeric_ids (movies this)).
  { repeat constructor; eexists; reflexivity. }
  split; [exact N|]. split; [reflexivity|].
  exact (proj1 (proj2
    (@deleteMovieById_removes_all reference_host (num_of_nat 7) this N))).
Defined.

(** X4.  In a store whose ids are numbers, a deleted id is not found any
    more: [findMovieById] returns nothing and logs that the id is invalid. *)
Theorem deleteMovieById_then_find `{Host} (id : number) (this : MovieAPI) :
  numeric_ids (movies this) →
  result (findMovieById id (after (deleteMovieById id this))) = None ∧
  console (findMovieById id (after (deleteMovieById id this)))
  = [LogText "Invalid movie id"].
Proof.
  intros N.
  assert (Gone : List.find (λ movie : object, loose_eq_num (movie !! "id") id)
                   (movies (after (deleteMovieById id this))) = None).
  { pose proof (numeric_ids_sublist _ _ (deleteMovieById_sublist id this) N) as N'.
    apply find_none_all. rewrite (deleteMovieById_movies id this N) in N' |- *.
    unfold numeric_ids in N'. rewrite Forall_forall in N' |- *.
    intros movie Hm. rewrite (loose_eq_num_numeric movie id (N' movie Hm)).
    apply list_elem_of_In, List.filter_In in Hm as [_ Kept].
    now apply negb_true_iff in Kept. }
  unfold findMovieById. rewrite Gone. now split.
Qed.

Lemma deleteMovieById_then_find_witness :
  let this := constructor (λ _, Qc_of_Z 0)
                [ {[ "title" := VStr "B" ]}; {[ "title" := VStr "A" ]} ] in
  let gone := after (@deleteMovieById reference_host (num_of_nat 0) this) in
  numeric_ids (movies this) ∧
  result (@findMovieById reference_host (num_of_nat 0) gone) = None ∧
  console (@findMovieById reference_host (num_of_nat 0) gone)
  = [LogText "Invalid movie id"].
Proof.
  intros this gone.
  assert (N : numeric_ids (movies this)).
  { repeat constructor; eexists; reflexivity. }
  split; [exact N|].
  exact (@deleteMovieById_then_find reference_host (num_of_nat 0) this N).
Defined.

(** X5.  In a store whose ids are numbers, [findMovieById] returns the
    first record with the id, and logs nothing; it returns nothing exactly
    when no record has the id, and then logs that the id is invalid.  The
    store is the same afterwards. *)
Theorem findMovieById_finds `{Host} (id : number) (this : MovieAPI) :
  numeric_ids (movies this) →
  (∀ movie : object,
      result (findMovieById id this) = Some movie →
      movie !! "id" = Some (VNum id) ∧
      console (findMovieById id this) = [] ∧
      ∃ front back : list object,
        movies this = front ++ movie :: back ∧
        Forall (λ other : object, strict_eq_num (other !! "id") id = false) front) ∧
  (result (findMovieById id this) = None
   ↔ ∀ movie : object,
       movie ∈ movies this → strict_eq_num (movie !! "id") id = false) ∧
  (result (findMovieById id this) = None →
   console (findMovieById id this) = [LogText "Invalid movie id"]) ∧
  after (findMovieById id this) = this.
Proof.
  intros N. unfold numeric_ids in N.
  set (like_id := λ movie : object, loose_eq_num (movie !! "id") id).
  unfold findMovieById. fold like_id.
  destruct (List.find like_id (movies this)) as [m|] eqn:F; simpl.
  - destruct (find_split like_id _ _ F) as (front & back & E & Pm & Pfront).
    rewrite E in N. apply Forall_app in N as [Nfront Nrest].
    apply Forall_cons in Nrest as [Nm Nback].
    unfold like_id in Pm. rewrite (loose_eq_num_numeric m id Nm) in Pm.
    split; [|split; [|split; [discriminate | reflexivity]]].
    + intros movie [= <-]. split; [now apply strict_eq_num_id|].
      split; [reflexivity|]. exists front, back. split; [exact E|].
      rewrite Forall_forall in Pfront, Nfront |- *. intros other Ho.
      rewrite <- (loose_eq_num_numeric other id (Nfront other Ho)).
      now apply Pfront.
    + split; [discriminate|]. intros None_has.
      rewrite (None_has m) in Pm; [discriminate|].
      apply list_elem_of_In. now apply (List.find_some like_id _ F).
  - split; [discriminate|]. split; [|split; reflexivity].
    split; [|reflexivity]. intros _ movie Hm.
    rewrite Forall_forall in N.
    rewrite <- (loose_eq_num_numeric movie id (N movie Hm)).
    apply (List.find_none like_id _ F). now apply list_elem_of_In.
Qed.

Lemma findMovieById_finds_witness :
  let this := constructor (λ _, Qc_of_Z 0)
                [ {[ "title" := VStr "B" ]}; {[ "title" := VStr "A" ]} ] in
  numeric_ids (movies this) ∧
  result (@findMovieById reference_host (num_of_nat 15) this) = None ∧
  (∀ movie : object,
      movie ∈ movies this → strict_eq_num (movie !! "id") (num_of_nat 15) = false).
Proof.
  intros this.
  assert (N : numeric_ids (movies this)).
  { repeat constructor; eexists; reflexivity. }
  split; [exact N|]. split; [reflexivity|].
  exact (proj1 (proj1 (proj2
    (@findMovieById_finds reference_host (num_of_nat 15) this N))) eq_refl).
Defined.

(** ** What a stored record holds *)

Lemma stamp_keeps (count : nat) (r : number) (movie : object) :
  keeps movie (stamp count r movie).
Proof.
  unfold keeps. repeat split.
  - intros k v E. unfold stamp. now apply lookup_union_Some_l.
  - rewrite stamp_id. eauto.
  - rewrite stamp_rating. eauto.
  - intros k S.
    destruct (decide (k = "id")) as [->|N1]; [now left|].
    destruct (decide (k = "rating")) as [->|N2]; [right; now left|].
    right. right. now rewrite <- (stamp_other count r movie k N1 N2).
Qed.

Lemma stamp_all_keeps random (count : nat) (entries : list object) :
  Forall2 keeps entries (stamp_all random count entries).1.
Proof.
  revert count. induction entries as [|movie rest IH]; intros count; simpl.
  - constructor.
  - specialize (IH (S count)).
    destruct (stamp_all random (S count) rest) as [rest' count'].
    simpl in *. constructor; [apply stamp_keeps | exact IH].
Qed.

(** X6.  [addMovie] appends one record and touches no other: the records
    of the store stay at their positions, the last record is the new one,
    and the counter goes up by one.  The new record holds every property of
    the caller's record as it is, an [id] and a [rating], and nothing
    else. *)
Theorem addMovie_appends (u : Qc) (movie : object) (this : MovieAPI) :
  length (movies (addMovie u movie this)) = S (length (movies this)) ∧
  idCount (addMovie u movie this) = S (idCount this) ∧
  (∀ (j : nat) (old : object),
      movies this !! j = Some old → movies (addMovie u movie this) !! j = Some old) ∧
  ∃ stored : object,
    movies (addMovie u movie this) !! length (movies this) = Some stored ∧
    last (movies (addMovie u movie this)) = Some stored ∧
    keeps movie stored.
Proof.
  unfold addMovie. simpl. split; [|split; [reflexivity|split]].
  - rewrite length_app. simpl. lia.
  - intros j old E. now apply lookup_app_l_Some.
  - eexists. split; [|split; [apply last_snoc | apply stamp_keeps]].
    now rewrite list_lookup_middle.
Qed.

Lemma addMovie_appends_witness :
  let movie : object := {[ "title" := VStr "New"; "year" := VNum (num_of_nat 1999) ]} in
  let this := constructor (λ _, Qc_of_Z 0) [ {[ "title" := VStr "B" ]} ] in
  ∃ stored : object,
    last (movies (addMovie (Qc_of_Z 0) movie this)) = Some stored ∧
    stored !! "year" = Some (VNum (num_of_nat 1999)) ∧
    stored !! "title" = Some (VStr "New").
Proof.
  intros movie this.
  destruct (addMovie_appends (Qc_of_Z 0) movie this)
    as (_ & _ & _ & stored & _ & Last & Kept & _).
  exists stored. split; [exact Last|]. split; apply Kept; reflexivity.
Defined.

(** X7.  The constructor stores one record for each entry, in the order
    of the entries, and sets the counter to their number.  Each stored
    record holds every property of its entry as it is, an [id] and a
    [rating], and nothing else. *)
Theorem constructor_keeps_entries (random : nat → Qc) (entries : list object) :
  Forall2 keeps entries (movies (constructor random entries)) ∧
  length (movies (constructor random entries)) = length entries ∧
  idCount (constructor random entries) = length entries.
Proof.
  split; [|split].
  - rewrite constructor_movies. apply stamp_all_keeps.
  - apply constructor_length.
  - apply constructor_idCount.
Qed.

Lemma constructor_keeps_entries_witness :
  let entry : object := {[ "genre" := VStr "Drama"; "subtitle" := VArr ["a"; "b"] ]} in
  ∃ stored : object,
    movies (constructor (λ _, Qc_of_Z 0) [entry]) = [stored] ∧
    stored !! "genre" = Some (VStr "Drama") ∧
    stored !! "subtitle" = Some (VArr ["a"; "b"]).
Proof.
  intros entry.
  destruct (constructor_keeps_entries (λ _, Qc_of_Z 0) [entry]) as (K & _ & _).
  destruct (movies (constructor (λ _, Qc_of_Z 0) [entry])) as [|stored rest] eqn:E;
    [inversion K|].
  apply Forall2_cons in K as [Kept Rest]. apply Forall2_nil_inv_l in Rest. subst rest.
  exists stored. split; [reflexivity|]. split; apply Kept; reflexivity.
Defined.

(** ** A fresh id *)

Section Fresh.
Context `{Host}.

(** The counter of a well numbered store is the id of none of its records. *)
Lemma well_numbered_fresh (this : MovieAPI) :
  well_numbered this →
  Forall (λ movie : object,
            loose_eq_num (movie !! "id") (num_of_nat (idCount this)) = false ∧
            strict_eq_num (movie !! "id") (num_of_nat (idCount this)) = false)
         (movies this).
Proof.
  intros [B _]. unfold ids in B. rewrite Forall_forall in B.
  apply Forall_forall. intros movie Hm.
  destruct (B (movie !! "id")) as (i & E & Lt).
  { apply list_elem_of_In, List.in_map. now apply list_elem_of_In. }
  rewrite E. simpl. unfold num_of_nat. simpl.
  assert (D : bool_decide (Qc_of_Z (Z.of_nat i) = Qc_of_Z (Z.of_nat (idCount this)))
              = false).
  { apply bool_decide_eq_false. intros Q. apply Z2Qc_inj in Q. lia. }
  now rewrite D.
Qed.

Lemma stamp_matches (count : nat) (r : number) (movie : object) :
  without_id movie →
  strict_eq_num (stamp count r movie !! "id") (num_of_nat count) = true ∧
  loose_eq_num (stamp count r movie !! "id") (num_of_nat count) = true.
Proof.
  intros W. rewrite (stamp_id_fresh count r movie W). simpl.
  unfold num_of_nat. simpl. split; now apply bool_decide_eq_true.
Qed.

End Fresh.

(** X8.  In a well numbered store, a record added without an [id] of its
    own is found under the counter value it was given. *)
Theorem addMovie_then_find `{Host} (u : Qc) (movie : object) (this : MovieAPI) :
  well_numbered this → without_id movie →
  result (findMovieById (num_of_nat (idCount this)) (addMovie u movie this))
  = Some (stamp (idCount this) (generateRating u) movie) ∧
  console (findMovieById (num_of_nat (idCount this)) (addMovie u movie this)) = [].
Proof.
  intros N W. unfold findMovieById, addMovie. simpl.
  pose proof (well_numbered_fresh this N) as Fresh.
  destruct (stamp_matches (idCount this) (generateRating u) movie W) as [_ Found].
  rewrite (find_first
             (λ m : object, loose_eq_num (m !! "id") (num_of_nat (idCount this)))
             (movies this) [] _); [now split | | exact Found].
  eapply Forall_impl; [exact Fresh|]. simpl. tauto.
Qed.

Lemma addMovie_then_find_witness :
  let this := constructor (λ _, Qc_of_Z 0) [ {[ "title" := VStr "B" ]} ] in
  let movie : object := {[ "title" := VStr "New" ]} in
  well_numbered this ∧ without_id movie ∧
  result (@findMovieById reference_host (num_of_nat 1)
            (addMovie (Qc_of_Z 0) movie this))
  = Some (stamp 1 (generateRating (Qc_of_Z 0)) movie).
Proof.
  intros this movie.
  assert (N : well_numbered this).
  { apply constructor_well_numbered. repeat constructor. }
  assert (W : without_id movie) by reflexivity.
  split; [exact N|]. split; [exact W|].
  exact (proj1 (@addMovie_then_find reference_host (Qc_of_Z 0) movie this N W)).
Defined.

(** X9.  In a well numbered store, adding a record without an [id] of its
    own and deleting it again under its counter value gives back the
    records of the store, in their order; the counter stays advanced, so
    the id is not handed out again. *)
Theorem addMovie_then_delete `{Host} (u : Qc) (movie : object) (this : MovieAPI) :
  well_numbered this → without_id movie →
  movies (after (deleteMovieById (num_of_nat (idCount this))
                   (addMovie u movie this))) = movies this ∧
  idCount (after (deleteMovieById (num_of_nat (idCount this))
                    (addMovie u movie this))) = S (idCount this) ∧
  console (deleteMovieById (num_of_nat (idCount this)) (addMovie u movie this)) = [].
Proof.
  intros N W. unfold deleteMovieById, addMovie. simpl.
  pose proof (well_numbered_fresh this N) as Fresh.
  destruct (stamp_matches (idCount this) (generateRating u) movie W) as [Strict Loose].
  rewrite (find_first
             (λ m : object, strict_eq_num (m !! "id") (num_of_nat (idCount this)))
             (movies this) [] _); [simpl | | exact Strict].
  - split; [|now split].
    rewrite List.filter_app. simpl. rewrite Loose. simpl.
    rewrite app_nil_r. apply filter_all.
    eapply Forall_impl; [exact Fresh|]. simpl. now intros m [-> _].
  - eapply Forall_impl; [exact Fresh|]. simpl. tauto.
Qed.

Lemma addMovie_then_delete_witness :
  let this := constructor (λ _, Qc_of_Z 0) [ {[ "title" := VStr "B" ]} ] in
  let movie : object := {[ "title" := VStr "New" ]} in
  well_numbered this ∧ without_id movie ∧
  movies (after (@deleteMovieById reference_host (num_of_nat 1)
                   (addMovie (Qc_of_Z 0) movie this))) = movies this.
Proof.
  intros this movie.
  assert (N : well_numbered this).
  { apply constructor_well_numbered. repeat constructor. }
  assert (W : without_id movie) by reflexivity.
  split; [exact N|]. split; [exact W|].
  exact (proj1 (@addMovie_then_delete reference_host (Qc_of_Z 0) movie this N W)).
Defined.

(** ** Editing a title *)

Lemma lookup_alter_title (title : string) (i j : nat) (l : list object) (k : string) :
  k ≠ "title" →
  (alter (λ movie : object, <["title" := VStr title]> movie) i l !! j)
    ≫= (λ movie : object, movie !! k)
  = (l !! j) ≫= (λ movie : object, movie !! k).
Proof.
  intros Nk. destruct (decide (i = j)) as [->|Nij].
  - rewrite list_lookup_alter_eq. destruct (l !! j) as [movie|]; simpl; [|reflexivity].
    now rewrite lookup_insert_ne by congruence.
  - now rewrite list_lookup_alter_ne.
Qed.

Lemma findIndex_ext {A : Type} (p : A → bool) (l k : list A) :
  List.map p l = List.map p k → findIndex p l = findIndex p k.
Proof.
  revert k. induction l as [|x l IH]; intros [|y k]; simpl; try discriminate;
    [reflexivity|].
  intros [= -> E]. now rewrite (IH k E).
Qed.

Lemma map_alter_title {B : Type} (f : object → B) (title : string) (i : nat)
  (l : list object) :
  (∀ movie : object, f (<["title" := VStr title]> movie) = f movie) →
  List.map f (alter (λ movie : object, <["title" := VStr title]> movie) i l)
  = List.map f l.
Proof.
  intros Same. revert i. induction l as [|movie rest IH]; intros [|i]; simpl;
    try reflexivity.
  - now rewrite Same.
  - f_equal. apply IH.
Qed.

(** X10.  [editMovieTitleById] changes titles only: whatever the store and
    the id, the store has as many records afterwards, the counter is the
    same, and every property other than [title] of the record at every
    position is as it was.  When no record has the id, the store is the
    same afterwards and it is logged that the id is invalid. *)
Theorem editMovieTitleById_frame (id : number) (title : string) (this : MovieAPI) :
  length (movies (after (editMovieTitleById id title this)))
  = length (movies this) ∧
  idCount (after (editMovieTitleById id title this)) = idCount this ∧
  (∀ (j : nat) (k : string),
      k ≠ "title" →
      (movies (after (editMovieTitleById id title this)) !! j)
        ≫= (λ movie : object, movie !! k)
      = (movies this !! j) ≫= (λ movie : object, movie !! k)) ∧
  ((∀ movie : object,
       movie ∈ movies this → strict_eq_num (movie !! "id") id = false) →
   after (editMovieTitleById id title this) = this ∧
   console (editMovieTitleById id title this) = [LogText "Invalid movie id"]).
Proof.
  unfold editMovieTitleById.
  destruct (findIndex _ (movies this)) as [i|] eqn:F; simpl.
  - split; [apply length_alter|]. split; [reflexivity|]. split.
    + intros j k Nk. now apply lookup_alter_title.
    + intros None_has.
      destruct (findIndex_split _ _ _ F) as (front & x & back & E & _ & Px & _).
      rewrite (None_has x) in Px; [discriminate|].
      rewrite E. apply list_elem_of_In, List.in_or_app. right. now left.
  - repeat split.
Qed.

Lemma editMovieTitleById_frame_witness :
  let this := constructor (λ _, Qc_of_Z 0)
                [ {[ "title" := VStr "B" ]}; {[ "title" := VStr "A" ]} ] in
  (∀ movie : object,
      movie ∈ movies this → strict_eq_num (movie !! "id") (num_of_nat 99) = false) ∧
  after (editMovieTitleById (num_of_nat 99) "X" this) = this ∧
  console (editMovieTitleById (num_of_nat 99) "X" this)
  = [LogText "Invalid movie id"].
Proof.
  intros this.
  assert (None_has : ∀ movie : object,
             movie ∈ movies this →
             strict_eq_num (movie !! "id") (num_of_nat 99) = false).
  { intros movie In. apply list_elem_of_In in In.
    destruct In as [<-|[<-|[]]]; reflexivity. }
  split; [exact None_has|].
  exact (proj2 (proj2 (proj2
    (editMovieTitleById_frame (num_of_nat 99) "X" this))) None_has).
Defined.

(** X11.  Of two edits of the same id the second one decides: the store is
    the one that the second edit alone leaves. *)
Theorem editMovieTitleById_twice (id : number) (first second : string)
  (this : MovieAPI) :
  after (editMovieTitleById id second
           (after (editMovieTitleById id first this)))
  = after (editMovieTitleById id second this).
Proof.
  set (has_id := λ movie : object, strict_eq_num (movie !! "id") id).
  unfold editMovieTitleById at 2. fold has_id.
  destruct (findIndex has_id (movies this)) as [i|] eqn:F; [|reflexivity].
  unfold editMovieTitleById. fold has_id. simpl.
  assert (Same : findIndex has_id
                   (alter (λ movie : object, <["title" := VStr first]> movie)
                      i (movies this)) = Some i).
  { rewrite <- F. apply findIndex_ext. apply map_alter_title.
    intros movie. unfold has_id. now rewrite title_keeps_id. }
  rewrite Same, F. simpl. f_equal.
  rewrite list_alter_alter_eq. apply list_alter_ext; [|reflexivity].
  intros movie _. simpl. apply insert_insert_eq.
Qed.

(** ** Printing *)

Lemma slice_first_n {A : Type} (k : nat) (l : list A) :
  slice 0 (Some (Z.of_nat k)) l = firstn k l.
Proof.
  unfold slice, slice_index.
  assert (E0 : Z.to_nat (if (0 <? 0)%Z then Z.max (Z.of_nat (length l) + 0) 0
                         else Z.min 0 (Z.of_nat (length l))) = 0%nat).
  { simpl. lia. }
  rewrite E0, Nat.sub_0_r, skipn_O.
  assert (Neg : (Z.of_nat k <? 0)%Z = false) by (apply Z.ltb_ge; lia).
  rewrite Neg.
  destruct (Nat.le_gt_cases k (length l)) as [Long|Short].
  - assert (E : Z.to_nat (Z.min (Z.of_nat k) (Z.of_nat (length l))) = k) by lia.
    now rewrite E.
  - assert (E : Z.to_nat (Z.min (Z.of_nat k) (Z.of_nat (length l))) = length l)
      by lia.
    rewrite E, firstn_all. symmetry. apply firstn_all2. lia.
Qed.

Section Descending.
Context `{Host}.

Lemma by_rating_desc_before (m1 m2 : object) (a b : number) :
  m1 !! "rating" = Some (VNum a) → m2 !! "rating" = Some (VNum b) →
  ordered_number a → ordered_number b →
  before by_rating_desc m1 m2 ↔ num_le b a.
Proof.
  intros E1 E2 Oa Ob. unfold before, by_rating_desc, js_lt, js_gt.
  rewrite E1, E2. simpl. rewrite <- (num_gt_le b a Ob Oa).
  destruct (num_gt b a); split; intros; try reflexivity; try discriminate; lia.
Qed.

Lemma by_rating_desc_sign (m1 m2 : object) :
  by_rating_desc m1 m2 = 1%Z ∨ by_rating_desc m1 m2 = (-1)%Z.
Proof. unfold by_rating_desc. destruct (js_lt _ _); auto. Qed.

Lemma by_rating_desc_sorted `{!SortLaws H} (l : list object) :
  rated l → StronglySorted (flip rating_le) (array_sort by_rating_desc l).
Proof.
  intros T. unfold rated in T. rewrite Forall_forall in T.
  apply (StronglySorted_among (before by_rating_desc)).
  - intros a b Ha Hb B. rewrite array_sort_perm in Ha, Hb.
    destruct (T a Ha) as (x & Ea & Ox), (T b Hb) as (y & Eb & Oy).
    exists y, x. repeat split; try assumption.
    now apply (by_rating_desc_before a b x y Ea Eb Ox Oy).
  - apply array_sort_sorted.
    + intros a b Ha Hb.
      destruct (T a Ha) as (x & Ea & Ox), (T b Hb) as (y & Eb & Oy).
      rewrite (by_rating_desc_before a b x y Ea Eb Ox Oy),
        (by_rating_desc_before b a y x Eb Ea Oy Ox).
      destruct (num_le_total x y Ox Oy); tauto.
    + intros a b c Ha Hb Hc.
      destruct (T a Ha) as (x & Ea & Ox), (T b Hb) as (y & Eb & Oy),
        (T c Hc) as (z & Ec & Oz).
      rewrite (by_rating_desc_before a b x y Ea Eb Ox Oy),
        (by_rating_desc_before b c y z Eb Ec Oy Oz),
        (by_rating_desc_before a c x z Ea Ec Ox Oz).
      intros L1 L2. exact (num_le_trans z y x L2 L1).
    + intros a b Ha Hb After.
      destruct (T a Ha) as (x & Ea & Ox), (T b Hb) as (y & Eb & Oy).
      assert (B : before by_rating_desc b a).
      { apply (by_rating_desc_before b a y x Eb Ea Oy Ox).
        destruct (num_le_total x y Ox Oy) as [L|L]; [exact L|].
        apply (by_rating_desc_before a b x y Ea Eb Ox Oy) in L.
        unfold before in L. lia. }
      unfold before in B. destruct (by_rating_desc_sign b a); lia.
Qed.

End Descending.

(** X12.  [printTop3] sorts the store by rating in place and logs, as one
    array, the first three records of the sorted store, or all of them when
    there are fewer.  When every rating is a number the sorted store is
    descending, so each logged record is rated at least as high as each
    record that is not logged. *)
Theorem printTop3_logs `{Host} {laws : SortLaws H} (this : MovieAPI) :
  movies (after (printTop3 this)) ≡ₚ movies this ∧
  console (printTop3 this)
  = [LogMovies (firstn 3 (movies (after (printTop3 this))))] ∧
  length (firstn 3 (movies (after (printTop3 this))))
  = Nat.min 3 (length (movies this)) ∧
  idCount (after (printTop3 this)) = idCount this ∧
  (rated (movies this) →
   StronglySorted (flip rating_le) (movies (after (printTop3 this))) ∧
   ∀ top other : object,
     top ∈ firstn 3 (movies (after (printTop3 this))) →
     other ∈ skipn 3 (movies (after (printTop3 this))) →
     rating_le other top).
Proof.
  unfold printTop3. cbn [after result idCount movies console].
  pose proof (array_sort_perm object by_rating_desc (movies this)) as P.
  pose proof (Permutation_length P) as L.
  split; [exact P|]. split.
  { now rewrite (slice_first_n 3). }
  split; [now rewrite length_firstn, L|]. split; [reflexivity|].
  intros R. pose proof (by_rating_desc_sorted (movies this) R) as S.
  split; [exact S|]. intros top other Ht Ho.
  rewrite <- (firstn_skipn 3) in S.
  exact (StronglySorted_app_1_elem_of _ _ _ _ _ S Ht Ho).
Qed.

Lemma printTop3_logs_witness :
  let this := constructor (λ n, Q2Qc (Z.of_nat n # 10))
                [ (∅ : object); ∅; ∅; ∅; ∅ ] in
  rated (movies this) ∧
  StronglySorted (flip rating_le) (movies (after (@printTop3 reference_host this))) ∧
  List.map (λ e, match e with LogMovies l => ids l | LogText _ => [] end)
    (console (@printTop3 reference_host this))
  = [[Some (VNum (num_of_nat 4)); Some (VNum (num_of_nat 3));
      Some (VNum (num_of_nat 2))]].
Proof.
  intros this.
  assert (R : rated (movies this)).
  { repeat constructor; eexists; (split; [reflexivity | discriminate]). }
  split; [exact R|]. split; [|reflexivity].
  destruct (@printTop3_logs reference_host reference_sort_laws this)
    as (_ & _ & _ & _ & Sorted_when_rated).
  exact (proj1 (Sorted_when_rated R)).
Defined.

(** X13.  [printBottomToTopRated] sorts the store by rating in place and
    logs the whole sorted store as one array.  When every rating is a number
    the order is ascending, lowest rating first. *)
Theorem printBottomToTopRated_logs `{Host} {laws : SortLaws H} (this : MovieAPI) :
  movies (after (printBottomToTopRated this)) ≡ₚ movies this ∧
  console (printBottomToTopRated this)
  = [LogMovies (movies (after (printBottomToTopRated this)))] ∧
  idCount (after (printBottomToTopRated this)) = idCount this ∧
  (rated (movies this) →
   StronglySorted rating_le (movies (after (printBottomToTopRated this)))).
Proof.
  unfold printBottomToTopRated. cbn [after result idCount movies console].
  split; [apply array_sort_perm|]. split; [reflexivity|]. split; [reflexivity|].
  apply by_rating_sorted.
Qed.

Lemma printBottomToTopRated_logs_witness :
  let this := constructor (λ n, Q2Qc ((4 - Z.of_nat n) # 10))
                [ (∅ : object); ∅; ∅ ] in
  rated (movies this) ∧
  StronglySorted rating_le
    (movies (after (@printBottomToTopRated reference_host this))) ∧
  ids (movies (after (@printBottomToTopRated reference_host this)))
  = [Some (VNum (num_of_nat 2)); Some (VNum (num_of_nat 1));
     Some (VNum (num_of_nat 0))].
Proof.
  intros this.
  assert (R : rated (movies this)).
  { repeat constructor; eexists; (split; [reflexivity | discriminate]). }
  split; [exact R|]. split; [|reflexivity].
  exact (proj2 (proj2 (proj2
    (@printBottomToTopRated_logs reference_host reference_sort_laws this))) R).
Defined.

(** ** Ratings *)

Lemma generateRating_range (u : Qc) :
  unit_draw u → one_decimal (generateRating u).
Proof.
  intros [L U]. unfold generateRating.
  set (scaled := round_double (u * Qc_of_Z (5 - 1))%Qc).
  set (shifted := round_double (scaled + Qc_of_Z 1)%Qc).
  set (tenfold := round_double (shifted * Qc_of_Z 10)%Qc).
  assert (B1 : (Qc_of_Z 0 ≤ scaled)%Qc ∧ (scaled ≤ Qc_of_Z 4)%Qc).
  { apply round_double_between; try (simpl; lia).
    - rewrite Z2Qc_inj_0 in *. apply Qcmult_nonneg_nonneg; [exact L|].
      rewrite <- Z2Qc_inj_0. now apply (proj1 (Z2Qc_inj_le 0 (5 - 1))).
    - change (Qc_of_Z 4) with (Qc_of_Z (1 * (5 - 1))). rewrite Z2Qc_inj_mul.
      apply Qcmult_le_mono_nonneg_r; [|now apply Qclt_le_weak].
      rewrite <- Z2Qc_inj_0. now apply (proj1 (Z2Qc_inj_le 0 (5 - 1))). }
  assert (B2 : (Qc_of_Z 1 ≤ shifted)%Qc ∧ (shifted ≤ Qc_of_Z 5)%Qc).
  { destruct B1 as [B1 B1'].
    apply round_double_between; try (simpl; lia).
    - change (Qc_of_Z 1) with (Qc_of_Z (0 + 1)) at 1. rewrite Z2Qc_inj_add.
      now apply (proj1 (Qcplus_le_mono_r _ _ _)).
    - change (Qc_of_Z 5) with (Qc_of_Z (4 + 1)). rewrite Z2Qc_inj_add.
      now apply (proj1 (Qcplus_le_mono_r _ _ _)). }
  assert (P10 : (Qc_of_Z 0 ≤ Qc_of_Z 10)%Qc).
  { now apply (proj1 (Z2Qc_inj_le 0 10)). }
  assert (B3 : (Qc_of_Z 10 ≤ tenfold)%Qc ∧ (tenfold ≤ Qc_of_Z 50)%Qc).
  { destruct B2 as [B2 B2'].
    apply round_double_between; try (simpl; lia).
    - change (Qc_of_Z 10) with (Qc_of_Z (1 * 10)) at 1. rewrite Z2Qc_inj_mul.
      apply Qcmult_le_mono_nonneg_r; [|exact B2].
      now rewrite <- Z2Qc_inj_0.
    - change (Qc_of_Z 50) with (Qc_of_Z (5 * 10)). rewrite Z2Qc_inj_mul.
      apply Qcmult_le_mono_nonneg_r; [|exact B2'].
      now rewrite <- Z2Qc_inj_0. }
  destruct B3 as [B3 B3'].
  pose proof (Math_round_between 10 50 tenfold B3 B3') as K.
  exists (Math_round tenfold),
    (round_double (Qc_of_Z (Math_round tenfold) / Qc_of_Z 10)%Qc).
  split; [exact K|]. split; [reflexivity|]. split; [reflexivity|].
  apply round_double_between; try (simpl; lia).
  - rewrite <- (Qc_of_Z_div_cancel 1 10) by lia.
    apply Qc_div_le_compat; [lia|].
    apply (proj1 (Z2Qc_inj_le _ _)). simpl. lia.
  - rewrite <- (Qc_of_Z_div_cancel 5 10) by lia.
    apply Qc_div_le_compat; [lia|].
    apply (proj1 (Z2Qc_inj_le _ _)). simpl. lia.
Qed.

Lemma one_decimal_ordered (n : number) : one_decimal n → ordered_number n.
Proof. intros (k & q & _ & _ & -> & _). discriminate. Qed.

Lemma stamp_rating_fresh (count : nat) (r : number) (movie : object) :
  without_rating movie → stamp count r movie !! "rating" = Some (VNum r).
Proof. unfold without_rating. intros E. now rewrite stamp_rating, E. Qed.

(** X14.  [generateRating] is monotone in what [Math.random()] returns: a
    larger draw never gives a smaller rating. *)
Theorem generateRating_mono (u v : Qc) :
  (u ≤ v)%Qc → num_le (generateRating u) (generateRating v).
Proof.
  intros L. unfold generateRating, num_le.
  assert (P4 : (Qc_of_Z 0 ≤ Qc_of_Z (5 - 1))%Qc).
  { now apply (proj1 (Z2Qc_inj_le 0 (5 - 1))). }
  assert (P10 : (Qc_of_Z 0 ≤ Qc_of_Z 10)%Qc).
  { now apply (proj1 (Z2Qc_inj_le 0 10)). }
  rewrite Z2Qc_inj_0 in P4, P10.
  apply round_double_mono, Qc_div_le_compat; [lia|].
  apply (proj1 (Z2Qc_inj_le _ _)). unfold Math_round. apply Qfloor_resp_le.
  apply (proj1 (Qcplus_le_mono_r _ _ (Q2Qc (1 # 2)))).
  apply round_double_mono, Qcmult_le_mono_nonneg_r; [exact P10|].
  apply round_double_mono, (proj1 (Qcplus_le_mono_r _ _ _)).
  apply round_double_mono, Qcmult_le_mono_nonneg_r; [exact P4 | exact L].
Qed.

Lemma generateRating_mono_witness :
  (Q2Qc (1 # 10) ≤ Q2Qc (9 # 10))%Qc ∧
  num_le (generateRating (Q2Qc (1 # 10))) (generateRating (Q2Qc (9 # 10))).
Proof.
  assert (L : (Q2Qc (1 # 10) ≤ Q2Qc (9 # 10))%Qc) by (now vm_compute).
  split; [exact L|]. exact (generateRating_mono _ _ L).
Defined.

(** ** What a call can do to the records *)

Section Invariant.
Context `{Host} `{!SortLaws H}.
Variable Q : object → Prop.
Hypothesis Q_title :
  ∀ (movie : object) (title : string), Q movie → Q (<["title" := VStr title]> movie).

Lemma step_Forall (c : call) (this : MovieAPI) :
  Forall Q (movies this) → Forall Q (created_by c this) →
  Forall Q (movies (step c this)).
Proof.
  intros A C. destruct c; simpl; try exact A.
  - rewrite Forall_forall in A. apply Forall_forall. intros m Hm. apply A.
    exact (elem_of_sublist _ _ _ Hm (deleteMovieById_sublist id this)).
  - eapply Permutation_Forall; [symmetry; apply array_sort_perm | exact A].
  - eapply Permutation_Forall; [symmetry; apply array_sort_perm | exact A].
  - eapply Permutation_Forall; [symmetry; apply array_sort_perm | exact A].
  - eapply Permutation_Forall; [symmetry; apply array_sort_perm | exact A].
  - rewrite created_by_add in C. apply Forall_app. split; [exact A | exact C].
  - unfold findMovieById. destruct (List.find _ _); exact A.
  - unfold editMovieTitleById. destruct (findIndex _ _); simpl; [|exact A].
    apply Forall_alter; [exact A|]. intros movie _. apply Q_title.
Qed.

Lemma run_Forall (calls : list call) (this : MovieAPI) :
  Forall Q (movies this) →
  Forall (λ c, ∀ s : MovieAPI, Forall Q (created_by c s)) calls →
  Forall Q (movies (run calls this)).
Proof.
  intros A C. revert this A.
  induction C as [|c rest Cc _ IH]; intros this A; [exact A|].
  apply IH. apply step_Forall; [exact A | apply Cc].
Qed.

End Invariant.

(** X15.  When no record passed to the constructor or to [addMovie] carries
    a [rating] of its own and every draw of [Math.random()] lies in [0, 1),
    then after any sequence of calls every record of the store has a rating
    with one decimal digit between 1 and 5; in particular every rating is a
    number, as the rating sorts need. *)
Theorem ratings_stay_in_range `{Host} {laws : SortLaws H} (random : nat → Qc)
  (entries : list object) (calls : list call) :
  (∀ i : nat, unit_draw (random i)) →
  Forall without_rating entries →
  Forall (λ c, Forall without_rating (supplied c) ∧ Forall unit_draw (draws c))
    calls →
  well_rated (movies (run calls (constructor random entries))) ∧
  rated (movies (run calls (constructor random entries))).
Proof.
  intros R We Wc.
  assert (W : well_rated (movies (run calls (constructor random entries)))).
  { unfold well_rated. apply run_Forall.
    - intros movie title (n & E & D). exists n. split; [|exact D].
      now rewrite lookup_insert_ne by discriminate.
    - apply Forall_lookup_2. intros i stored Es.
      destruct (entries !! i) as [entry|] eqn:Ee.
      + rewrite (constructor_lookup random entries i entry Ee) in Es.
        injection Es as <-.
        exists (generateRating (random i)).
        split; [|apply generateRating_range, R].
        apply stamp_rating_fresh. exact (Forall_lookup_1 _ _ _ _ We Ee).
      + apply lookup_ge_None in Ee. apply lookup_lt_Some in Es.
        rewrite constructor_length in Es. lia.
    - eapply Forall_impl; [exact Wc|]. intros c [Ws Wd] s.
      destruct (is_add c) eqn:Add;
        [|rewrite (created_by_other c s Add); constructor].
      destruct c; try discriminate. rewrite created_by_add.
      simpl in Ws, Wd.
      apply Forall_cons in Ws as [Wm _]. apply Forall_cons in Wd as [Wu _].
      constructor; [|constructor].
      eexists. split; [apply stamp_rating_fresh, Wm|].
      apply generateRating_range, Wu. }
  split; [exact W|]. unfold rated. eapply Forall_impl; [exact W|].
  intros movie (n & E & D). exists n.
  split; [exact E | now apply one_decimal_ordered].
Qed.

Lemma ratings_stay_in_range_witness :
  let random : nat → Qc := λ _, Q2Qc (37 # 100) in
  let entries : list object := [ {[ "title" := VStr "B" ]}; ∅ ] in
  let calls :=
    [ AddMovie (Q2Qc (1 # 2)) {[ "title" := VStr "N" ]}; PrintTop3;
      DeleteMovieById (num_of_nat 0);
      EditMovieTitleById (num_of_nat 1) "T" ] in
  (∀ i : nat, unit_draw (random i)) ∧
  Forall without_rating entries ∧
  Forall (λ c, Forall without_rating (supplied c) ∧ Forall unit_draw (draws c))
    calls ∧
  well_rated (movies (@run reference_host calls (constructor random entries))) ∧
  length (movies (@run reference_host calls (constructor random entries))) = 2.
Proof.
  intros random entries calls.
  assert (D : ∀ u : Qc, (Qc_of_Z 0 ≤ u)%Qc → (u < Qc_of_Z 1)%Qc → unit_draw u).
  { intros u L U. now split. }
  assert (R : ∀ i : nat, unit_draw (random i)).
  { intros i. apply D; now vm_compute. }
  assert (We : Forall without_rating entries).
  { repeat constructor. }
  assert (Wc : Forall (λ c, Forall without_rating (supplied c)
                            ∧ Forall unit_draw (draws c)) calls).
  { repeat (constructor; [split; repeat constructor|]);
      try (apply D; now vm_compute). constructor. }
  split; [exact R|]. split; [exact We|]. split; [exact Wc|].
  split; [|reflexivity].
  exact (proj1 (@ratings_stay_in_range reference_host reference_sort_laws
                  random entries calls R We Wc)).
Defined.

(** ** Stores that the methods can reach *)

Lemma loose_eq_num_nat `{Host} (i j : nat) :
  loose_eq_num (Some (VNum (num_of_nat i))) (num_of_nat j) = bool_decide (i = j).
Proof.
  simpl. unfold num_of_nat. simpl. apply bool_decide_ext. split.
  - intros E. apply Z2Qc_inj in E. lia.
  - now intros ->.
Qed.

Lemma NoDup_ids_eq (l : list object) (a b : object) :
  NoDup (ids l) → a ∈ l → b ∈ l → a !! "id" = b !! "id" → a = b.
Proof.
  induction l as [|x rest IH]; intros D Ha Hb E.
  - now apply elem_of_nil in Ha.
  - unfold ids in D. simpl in D. apply NoDup_cons in D as [Nx D].
    assert (Among : ∀ m : object, m ∈ rest → m !! "id" ∈ ids rest).
    { intros m Hm. apply list_elem_of_In, List.in_map. now apply list_elem_of_In. }
    apply elem_of_cons in Ha as [->|Ha], Hb as [->|Hb].
    + reflexivity.
    + exfalso. apply Nx. rewrite E. now apply Among.
    + exfalso. apply Nx. rewrite <- E. now apply Among.
    + now apply IH.
Qed.

Lemma find_counted `{Host} (l : list object) (start j : nat) :
  ids l = counted start (length l) →
  List.find (λ movie : object,
               loose_eq_num (movie !! "id") (num_of_nat (start + j))) l
  = l !! j.
Proof.
  revert start j. induction l as [|m rest IH]; intros start j I.
  - reflexivity.
  - unfold ids, counted in I. simpl in I. injection I as Em Er.
    simpl. rewrite Em, loose_eq_num_nat. destruct j as [|j].
    + now rewrite bool_decide_eq_true_2 by lia.
    + rewrite bool_decide_eq_false_2 by lia.
      assert (E : start + S j = S start + j) by lia. rewrite E.
      exact (IH (S start) j Er).
Qed.

(** X16.  On an instance built from records without an [id], after any
    sequence of calls that add only records without an [id]: every record
    of the store has a natural number below the counter as its [id], and
    [findMovieById] with that number returns this very record and logs
    nothing. *)
Theorem stored_record_is_found `{Host} {laws : SortLaws H} (random : nat → Qc)
  (entries : list object) (calls : list call) (movie : object) :
  Forall without_id entries →
  Forall (λ c, Forall without_id (supplied c)) calls →
  movie ∈ movies (run calls (constructor random entries)) →
  ∃ i : nat,
    movie !! "id" = Some (VNum (num_of_nat i)) ∧
    i < idCount (run calls (constructor random entries)) ∧
    result (findMovieById (num_of_nat i) (run calls (constructor random entries)))
    = Some movie ∧
    console (findMovieById (num_of_nat i) (run calls (constructor random entries)))
    = [].
Proof.
  intros We Wc.
  pose proof (constructor_well_numbered random entries We) as N.
  apply (run_well_numbered calls _ Wc) in N.
  set (this := run calls (constructor random entries)) in *.
  destruct N as [B D]. intros Hm.
  assert (Numbered : ∀ m : object, m ∈ movies this →
            ∃ i : nat, m !! "id" = Some (VNum (num_of_nat i)) ∧ i < idCount this).
  { intros m In. rewrite Forall_forall in B. apply B.
    apply list_elem_of_In, List.in_map. now apply list_elem_of_In. }
  destruct (Numbered movie Hm) as (i & E & Lt).
  exists i. split; [exact E|]. split; [exact Lt|].
  unfold findMovieById.
  destruct (List.find _ (movies this)) as [m|] eqn:F; simpl.
  - split; [|reflexivity]. f_equal.
    apply List.find_some in F as [In P]. apply list_elem_of_In in In.
    destruct (Numbered m In) as (j & Ej & _).
    rewrite Ej, loose_eq_num_nat in P. apply bool_decide_eq_true in P. subst j.
    apply (NoDup_ids_eq (movies this)); try assumption. congruence.
  - exfalso. apply list_elem_of_In in Hm.
    pose proof (List.find_none _ _ F movie Hm) as P. simpl in P.
    rewrite E, loose_eq_num_nat in P. apply bool_decide_eq_false in P. now apply P.
Qed.

Lemma stored_record_is_found_witness :
  let random : nat → Qc := λ _, Qc_of_Z 0 in
  let entries : list object := [ {[ "title" := VStr "B" ]}; {[ "title" := VStr "A" ]} ] in
  let calls :=
    [ DeleteMovieById (num_of_nat 0); AddMovie (Qc_of_Z 0) {[ "title" := VStr "C" ]};
      FetchMoviesSortedByName ] in
  let movie := stamp 2 (generateRating (Qc_of_Z 0)) {[ "title" := VStr "C" ]} in
  Forall without_id entries ∧
  Forall (λ c, Forall without_id (supplied c)) calls ∧
  movie ∈ movies (@run reference_host calls (constructor random entries)) ∧
  ∃ i : nat,
    movie !! "id" = Some (VNum (num_of_nat i)) ∧
    i < idCount (@run reference_host calls (constructor random entries)) ∧
    result (@findMovieById reference_host (num_of_nat i)
              (@run reference_host calls (constructor random entries)))
    = Some movie ∧
    console (@findMovieById reference_host (num_of_nat i)
               (@run reference_host calls (constructor random entries)))
    = [].
Proof.
  intros random entries calls movie.
  assert (We : Forall without_id entries) by (repeat constructor).
  assert (Wc : Forall (λ c, Forall without_id (supplied c)) calls)
    by (repeat constructor).
  assert (In : movie ∈ movies (@run reference_host calls (constructor random entries))).
  { apply list_elem_of_In. right. left. reflexivity. }
  split; [exact We|]. split; [exact Wc|]. split; [exact In|].
  exact (@stored_record_is_found reference_host reference_sort_laws
           random entries calls movie We Wc In).
Defined.

(** X17.  The script at the end of the file builds the instance from the
    records of [movies.json] and logs [findMovieById(15)].  When no record
    of the file carries an [id], it logs the sixteenth record of the file
    as the constructor stored it: with id 15, with the record's own rating
    when it carries one and the generated rating otherwise, and with every
    property of the record; when the file has fewer than sixteen records it
    logs that the id is invalid and then [undefined]. *)
Theorem script_prints `{Host} (random : nat → Qc) (moviesJson : list object) :
  Forall without_id moviesJson →
  script random moviesJson
  = match moviesJson !! 15 with
    | Some entry => [PrintedMovie (stamp 15 (generateRating (random 15)) entry)]
    | None => [PrintedLog (LogText "Invalid movie id"); PrintedUndefined]
    end ∧
  ∀ entry : object,
    moviesJson !! 15 = Some entry →
    ∃ logged : object,
      script random moviesJson = [PrintedMovie logged] ∧
      logged !! "id" = Some (VNum (num_of_nat 15)) ∧
      logged !! "rating"
      = Some (default (VNum (generateRating (random 15))) (entry !! "rating")) ∧
      keeps entry logged.
Proof.
  intros W.
  assert (E : script random moviesJson
              = match moviesJson !! 15 with
                | Some entry =>
                    [PrintedMovie (stamp 15 (generateRating (random 15)) entry)]
                | None => [PrintedLog (LogText "Invalid movie id"); PrintedUndefined]
                end).
  { unfold script, findMovieById. cbv zeta.
    pose proof (constructor_ids random moviesJson W) as I.
    rewrite <- (constructor_length random moviesJson) in I.
    change (num_of_nat 15) with (num_of_nat (0 + 15)).
    rewrite (find_counted _ 0 15 I).
    destruct (moviesJson !! 15) as [entry|] eqn:E.
    - now rewrite (constructor_lookup random moviesJson 15 entry E).
    - assert (Short : movies (constructor random moviesJson) !! 15 = None).
      { apply lookup_ge_None. rewrite constructor_length. now apply lookup_ge_None. }
      now rewrite Short. }
  split; [exact E|]. intros entry At. rewrite At in E.
  exists (stamp 15 (generateRating (random 15)) entry).
  split; [exact E|]. split.
  - apply stamp_id_fresh. exact (Forall_lookup_1 _ _ _ _ W At).
  - split; [apply stamp_rating | apply stamp_keeps].
Qed.

Lemma script_prints_witness :
  let random : nat → Qc := λ _, Q2Qc (37 # 100) in
  let entry : object := {[ "title" := VStr "P"; "rating" := VStr "great" ]} in
  let moviesJson : list object := replicate 15 ∅ ++ [ entry ] in
  Forall without_id moviesJson ∧
  moviesJson !! 15 = Some entry ∧
  ∃ logged : object,
    @script reference_host random moviesJson = [PrintedMovie logged] ∧
    logged !! "id" = Some (VNum (num_of_nat 15)) ∧
    logged !! "rating" = Some (VStr "great") ∧
    keeps entry logged.
Proof.
  intros random entry moviesJson.
  assert (W : Forall without_id moviesJson) by (repeat constructor).
  split; [exact W|]. split; [reflexivity|].
  exact (proj2 (@script_prints reference_host random moviesJson W) entry eq_refl).
Defined.

(** ** The counter and the size of the store *)

(** X18.  Only [addMovie] moves the counter and only [addMovie] makes the
    store longer: after any sequence of calls the counter has advanced by
    the number of [addMovie] calls among them, whatever was deleted in
    between, and the store is at most that many records longer. *)
Theorem counter_counts_adds `{Host} {laws : SortLaws H} (calls : list call)
  (this : MovieAPI) :
  idCount (run calls this) = idCount this + length (List.filter is_add calls) ∧
  (length (movies (run calls this))
   ≤ length (movies this) + length (List.filter is_add calls))%nat.
Proof.
  revert this. induction calls as [|c rest IH]; intros this.
  - simpl. lia.
  - change (run (c :: rest) this) with (run rest (step c this)).
    destruct (IH (step c this)) as [C L].
    assert (Step : idCount (step c this)
                   = idCount this + (if is_add c then 1 else 0)
                   ∧ (length (movies (step c this))
                      ≤ length (movies this) + (if is_add c then 1 else 0))%nat).
    { destruct c; simpl; try lia.
      - pose proof (sublist_length _ _ (deleteMovieById_sublist id this)).
        unfold deleteMovieById in *. destruct (List.find _ _); simpl in *; lia.
      - rewrite (Permutation_length (array_sort_perm _ _ _)). lia.
      - rewrite (Permutation_length (array_sort_perm _ _ _)). lia.
      - rewrite (Permutation_length (array_sort_perm _ _ _)). lia.
      - rewrite (Permutation_length (array_sort_perm _ _ _)). lia.
      - rewrite length_app. simpl. lia.
      - unfold findMovieById. destruct (List.find _ _); simpl; lia.
      - unfold editMovieTitleById. destruct (findIndex _ _); simpl; [|lia].
        rewrite length_alter. lia. }
    destruct Step as [Sc Sl]. simpl List.filter.
    destruct (is_add c); simpl length; lia.
Qed.

Lemma counter_counts_adds_witness :
  let this := constructor (λ _, Qc_of_Z 0) [ (∅ : object); ∅ ] in
  let calls :=
    [ AddMovie (Qc_of_Z 0) ∅; DeleteMovieById (num_of_nat 0);
      DeleteMovieById (num_of_nat 2); AddMovie (Qc_of_Z 0) ∅; PrintTop3 ] in
  idCount (@run reference_host calls this) = 4 ∧
  length (movies (@run reference_host calls this)) = 2 ∧
  idCount (@run reference_host calls this)
  = idCount this + length (List.filter is_add calls).
Proof.
  intros this calls. split; [reflexivity|]. split; [reflexivity|].
  exact (proj1 (@counter_counts_adds reference_host reference_sort_laws calls this)).
Defined.

(** ** Sorting by name *)

(** X19.  [fetchMoviesSortedByName] returns the records of the
    store in another order: the same records, hence the same ids, each as
    often as before.  When every record has a title, the returned sequence
    is non-decreasing by title, titles compared code unit by code unit.
    The store holds the returned sequence afterwards. *)
Theorem fetchMoviesSortedByName_sorted `{Host} {laws : SortLaws H}
  (this : MovieAPI) :
  result (fetchMoviesSortedByName this) ≡ₚ movies this ∧
  ids (result (fetchMoviesSortedByName this)) ≡ₚ ids (movies this) ∧
  movies (after (fetchMoviesSortedByName this))
  = result (fetchMoviesSortedByName this) ∧
  (titled (movies this) →
   StronglySorted title_le (result (fetchMoviesSortedByName this))).
Proof.
  unfold fetchMoviesSortedByName. simpl. repeat split.
  - apply array_sort_perm.
  - unfold ids. apply Permutation_map, array_sort_perm.
  - apply by_title_sorted.
Qed.

Lemma fetchMoviesSortedByName_sorted_witness :
  let this := constructor (λ _, Qc_of_Z 0)
                [ {[ "title" := VStr "～" ]}; {[ "title" := VStr "B" ]};
                  {[ "title" := VStr "😀" ]}; {[ "title" := VStr "A" ]} ] in
  titled (movies this) ∧
  StronglySorted title_le (result (@fetchMoviesSortedByName reference_host this)) ∧
  List.map (λ movie : object, movie !! "title")
    (result (@fetchMoviesSortedByName reference_host this))
  = [Some (VStr "A"); Some (VStr "B"); Some (VStr "😀"); Some (VStr "～")] ∧
  ids (result (@fetchMoviesSortedByName reference_host this))
  = [Some (VNum (num_of_nat 3)); Some (VNum (num_of_nat 1));
     Some (VNum (num_of_nat 2)); Some (VNum (num_of_nat 0))].
Proof.
  intros this.
  assert (T : titled (movies this)).
  { repeat constructor; eexists; reflexivity. }
  split; [exact T|]. split; [|split; reflexivity].
  exact (proj2 (proj2 (proj2
    (@fetchMoviesSortedByName_sorted reference_host reference_sort_laws this))) T).
Defined.
